(** * cli_script_commands: a command-line menu derived from docstrings

    Shallow embedding of [src/cli_script_commands.py] (class
    [ScriptCommands]) together with the part of the libraries it drives:

    - [argparse], as shipped with CPython 3.11 ([Lib/argparse.py]), for the
      features [ScriptCommands] configures: a top-level parser with one
      sub-parsers action ([dest="cmd"]), and per sub-command the automatic
      [-h/--help] action, [store_true] actions and [store] actions with
      [nargs] ['?'] or ['+'];
    - [docstring_parser.parse], a collaborator: only its entry guard is
      modelled, parsing of a non-empty text is a parameter;
    - the [builtins] namespace, a collaborator: [bool], [list] and [str] are
      modelled, every other attribute is a parameter.

    Python state is threaded explicitly: a method is a function from the
    process state to an outcome and a new process state, so that mutations
    made before an exception is raised stay visible afterwards.

    Strings are sequences of 8-bit characters; text is taken to be ASCII. *)

From Stdlib Require Import String Ascii List Bool Arith ZArith Lia.
Import ListNotations.
Open Scope string_scope.
Open Scope list_scope.

Set Implicit Arguments.

(* ===================================================================== *)
(** * Python strings *)
(* ===================================================================== *)

Module Str.

(** [s.startswith(p)] *)
Definition startswith (s p : string) : bool := String.prefix p s.

(** [c in s] *)
Fixpoint contains (c : ascii) (s : string) : bool :=
  match s with
  | EmptyString => false
  | String d s' => Ascii.eqb c d || contains c s'
  end.

(** [s.lstrip(c)] *)
Fixpoint lstrip (c : ascii) (s : string) : string :=
  match s with
  | EmptyString => EmptyString
  | String d s' => if Ascii.eqb c d then lstrip c s' else s
  end.

(** [s.replace(a, b)] for single characters *)
Fixpoint replace (a b : ascii) (s : string) : string :=
  match s with
  | EmptyString => EmptyString
  | String d s' => String (if Ascii.eqb a d then b else d) (replace a b s')
  end.

(** [s.split(c, 1)] when [c in s]: the text before and after the first
    occurrence of [c]. *)
Fixpoint split1 (c : ascii) (s : string) : option (string * string) :=
  match s with
  | EmptyString => None
  | String d s' =>
      if Ascii.eqb c d then Some (EmptyString, s')
      else match split1 c s' with
           | Some (l, r) => Some (String d l, r)
           | None => None
           end
  end.

Definition is_digit (c : ascii) : bool :=
  let n := nat_of_ascii c in ((48 <=? n)%nat && (n <=? 57)%nat).

Fixpoint all_digits (s : string) : bool :=
  match s with
  | EmptyString => true
  | String d s' => is_digit d && all_digits s'
  end.

(** full match of [\d*\.\d+] *)
Fixpoint is_fraction (s : string) : bool :=
  match s with
  | EmptyString => false
  | String d s' =>
      if Ascii.eqb d "."%char
      then negb (String.eqb s' EmptyString) && all_digits s'
      else is_digit d && is_fraction s'
  end.

(** text matched by a trailing [$]: the end of the string, or just before
    one final newline *)
Fixpoint chomp (s : string) : string :=
  match s with
  | EmptyString => EmptyString
  | String d s' =>
      if Ascii.eqb d "010"%char && String.eqb s' EmptyString
      then EmptyString else String d (chomp s')
  end.

(** [str.join] *)
Fixpoint join (sep : string) (l : list string) : string :=
  match l with
  | [] => EmptyString
  | [x] => x
  | x :: l' => x ++ sep ++ join sep l'
  end.

End Str.

(** Dictionaries with string keys, in insertion order. *)
Module Dict.

Section WithValue.
Variable V : Type.

Definition t := list (string * V).

(** [d.get(k)] *)
Fixpoint get (k : string) (d : t) : option V :=
  match d with
  | [] => None
  | (k', v) :: d' => if String.eqb k k' then Some v else get k d'
  end.

(** [k in d] *)
Definition mem (k : string) (d : t) : bool :=
  match get k d with Some _ => true | None => false end.

(** [d[k] = v]: an existing key keeps its position *)
Fixpoint set (k : string) (v : V) (d : t) : t :=
  match d with
  | [] => [(k, v)]
  | (k', v') :: d' =>
      if String.eqb k k' then (k, v) :: d' else (k', v') :: set k v d'
  end.

(** [del d[k]] *)
Fixpoint remove (k : string) (d : t) : t :=
  match d with
  | [] => []
  | (k', v') :: d' =>
      if String.eqb k k' then d' else (k', v') :: remove k d'
  end.

Definition keys (d : t) : list string := map fst d.

End WithValue.

End Dict.


(* ===================================================================== *)
(** * Python values, exceptions and the [builtins] namespace *)
(* ===================================================================== *)

Module Py.

(** A function object: its name, its documentation text and its identity. *)
Record function := {
  __name__ : string;
  __doc__ : option string;
  id : nat
}.

#[warnings="-register-all"]
Inductive value :=
| VNone
| VBool (b : bool)
| VInt (z : Z)
| VStr (s : string)
| VList (l : list value)
| VFunc (f : function)
| VObject (repr : string) (truth : bool).

(** [bool(v)], as used by [not v] and [a or b] *)
Definition truthy (v : value) : bool :=
  match v with
  | VNone => false
  | VBool b => b
  | VInt z => negb (Z.eqb z 0)
  | VStr s => negb (String.eqb s "")
  | VList l => match l with [] => false | _ => true end
  | VFunc _ => true
  | VObject _ t => t
  end.

(** [v is None] *)
Definition is_None (v : value) : bool :=
  match v with VNone => true | _ => false end.

(** An optional Python string as a value. *)
Definition of_opt_string (s : option string) : value :=
  match s with Some s => VStr s | None => VNone end.

(** Messages of argparse errors (kinds, not the formatted text). *)
Inductive message :=
| expected_at_most_one_argument
| expected_at_least_one_argument
| expected_n_arguments (n : nat)
| ignored_explicit_argument (arg : string)
| invalid_value (arg : string)
| invalid_choice (arg : string)
| unknown_parser (name : string)
| not_callable
| conflicting_subparser (name : string)
| conflicting_option_string (opts : list string)
| ambiguous_option (arg : string) (matches : list string)
| required_arguments (names : list (option string))
| unrecognized_arguments (args : list string).

Inductive exn :=
| AttributeError
| TypeError
| ValueError
| IndexError
| ParseError (text : string)
| ArgumentError (argument_name : option string) (msg : message)
| SystemExit (code : Z)
| NoArgumentsPassed
| OtherError (name : string).

(** Outcome of a call that has no effect on the process state. *)
Inductive result (A : Type) :=
| Return (a : A)
| Raise (e : exn).
Arguments Return {A} a.
Arguments Raise {A} e.

(** What calling a type on a command-line string does: it returns the
    converted value, rejects the string ([TypeError], [ValueError] or
    [ArgumentTypeError]), or raises something else. *)
Inductive conversion :=
| Converted (v : value)
| Rejected
| Thrown (e : exn).

(** The attributes of the module [builtins] other than [bool], [list] and
    [str]. *)
Class Builtins := {
  other : Type;
  (** [getattr(builtins, name)], [None] for a missing attribute *)
  other_getattr : string -> option other;
  (** [callable(o)] *)
  other_callable : other -> bool;
  (** [o(arg_string)] *)
  other_call : other -> string -> conversion
}.

Inductive builtin `{Builtins} :=
| py_bool
| py_list
| py_str
| py_other (o : other).

Section WithBuiltins.
Context `{B : Builtins}.

(** [getattr(builtins, name)]; [name] is [None] when the docstring gives a
    parameter no type. *)
Definition getattr_builtins (name : option string) : result builtin :=
  match name with
  | None => Raise TypeError
  | Some n =>
      if String.eqb n "bool" then Return py_bool
      else if String.eqb n "list" then Return py_list
      else if String.eqb n "str" then Return py_str
      else match other_getattr n with
           | Some o => Return (py_other o)
           | None => Raise AttributeError
           end
  end.

(** [t == bool], [t == list] *)
Definition eq_bool (t : builtin) : bool :=
  match t with py_bool => true | _ => false end.
Definition eq_list (t : builtin) : bool :=
  match t with py_list => true | _ => false end.

Definition callable (t : builtin) : bool :=
  match t with
  | py_other o => other_callable o
  | _ => true
  end.

Fixpoint chars (s : string) : list value :=
  match s with
  | EmptyString => []
  | String c s' => VStr (String c EmptyString) :: chars s'
  end.

(** [t(arg_string)] *)
Definition call (t : builtin) (arg_string : string) : conversion :=
  match t with
  | py_bool => Converted (VBool (negb (String.eqb arg_string "")))
  | py_list => Converted (VList (chars arg_string))
  | py_str => Converted (VStr arg_string)
  | py_other o => other_call o arg_string
  end.

End WithBuiltins.

End Py.


(* ===================================================================== *)
(** * argparse *)
(* ===================================================================== *)

Module Argparse.
Import Py.

(** ** The patterns of [_get_nargs_pattern]

    argparse turns the argument strings into a pattern string over ['A']
    (an argument), ['O'] (an option) and ['-'] (the separator [--]), and
    matches it with regular expressions built from the actions' [nargs].
    The expressions it builds are concatenations of groups, a group being a
    sequence of character classes, each taken once, at most once or any
    number of times; [re.match] anchors them at the start, prefers the
    longest repetition and backtracks. *)

Inductive pchar := pA | pO | pDash.

Definition pchar_eqb (a b : pchar) : bool :=
  match a, b with
  | pA, pA | pO, pO | pDash, pDash => true
  | _, _ => false
  end.

Inductive quantifier := Once | AtMostOnce | Many.

Record atom := {
  class : list pchar;
  quant : quantifier
}.

Definition in_class (a : atom) (c : pchar) : bool :=
  existsb (pchar_eqb c) (class a).

(** Length of the longest prefix of [s] made of characters of [a]. *)
Fixpoint run (a : atom) (s : list pchar) : nat :=
  match s with
  | c :: s' => if in_class a c then S (run a s') else 0
  | [] => 0
  end.

(** [re.match] of a sequence of atoms against [s]: the number of
    characters each atom takes in the first match found by a backtracking
    search that tries longer repetitions first. *)
Fixpoint match_atoms (atoms : list atom) (s : list pchar) : option (list nat) :=
  match atoms with
  | [] => Some []
  | a :: atoms' =>
      let try := fix try (n : nat) : option (list nat) :=
        match match_atoms atoms' (skipn n s) with
        | Some r => Some (n :: r)
        | None => match n with 0 => None | S n' => try n' end
        end in
      match quant a with
      | Many => try (run a s)
      | AtMostOnce => try (Nat.min 1 (run a s))
      | Once =>
          match run a s with
          | 0 => None
          | S _ => option_map (cons 1) (match_atoms atoms' (skipn 1 s))
          end
      end
  end.

(** Sum the per-atom counts group by group: [len(match.group(i))]. *)
Fixpoint group_lengths (groups : list (list atom)) (counts : list nat) : list nat :=
  match groups with
  | [] => []
  | g :: groups' =>
      list_sum (firstn (length g) counts)
        :: group_lengths groups' (skipn (length g) counts)
  end.

Definition re_match (groups : list (list atom)) (s : list pchar) : option (list nat) :=
  option_map (group_lengths groups) (match_atoms (concat groups) s).

Inductive Nargs :=
| N0           (** the integer 0 of [store_true] and [help] *)
| OPTIONAL     (** ['?'] *)
| ONE_OR_MORE  (** ['+'] *)
| PARSER.      (** ['A...'], the sub-parsers action *)

Definition dashes : atom := {| class := [pDash]; quant := Many |}.

(** The pattern of a positional action. *)
Definition positional_pattern (n : Nargs) : list atom :=
  match n with
  | N0 => [dashes; dashes]
  | OPTIONAL => [dashes; {| class := [pA]; quant := AtMostOnce |}; dashes]
  | ONE_OR_MORE =>
      [dashes; {| class := [pA]; quant := Once |};
       {| class := [pA; pDash]; quant := Many |}]
  | PARSER =>
      [dashes; {| class := [pA]; quant := Once |};
       {| class := [pDash; pA; pO]; quant := Many |}]
  end.

(** For an optional action [--] is not allowed:
    [nargs_pattern.replace('-*', '').replace('-', '')]. *)
Definition is_dashes (a : atom) : bool :=
  match class a, quant a with
  | [pDash], Many => true
  | _, _ => false
  end.

Definition without_dash (a : atom) : atom :=
  {| class := filter (fun c => negb (pchar_eqb c pDash)) (class a);
     quant := quant a |}.

Definition strip_dashes (g : list atom) : list atom :=
  map without_dash (filter (fun a => negb (is_dashes a)) g).

(** ** Actions and parsers *)

(** What a parser writes. The text of a help or usage message is the
    business of argparse's formatter and is not modelled: a message is
    identified by the parser it describes ([prog] without the program name:
    empty for the top-level parser, the sub-command's name for its parser). *)
Inductive text :=
| Line (s : string)
| HelpOf (prog : list string)
| UsageOf (prog : list string)
| ErrorOf (prog : list string) (argument_name : option string) (msg : message).

Inductive output :=
| Stdout (t : text)
| Stderr (t : text).

(** Outcome of parsing: a value, an exception, or [sys.exit(code)] after
    the listed output was written. *)
Inductive presult (A : Type) :=
| POk (a : A)
| PError (e : exn)
| PExit (code : Z) (printed : list output).
Arguments POk {A} a.
Arguments PError {A} e.
Arguments PExit {A} code printed.

Definition pbind {A C : Type} (m : presult A) (k : A -> presult C) : presult C :=
  match m with
  | POk a => k a
  | PError e => PError e
  | PExit c o => PExit c o
  end.

Notation "'let*' x ':=' m 'in' k" := (pbind m (fun x => k))
  (at level 10, x pattern, m at level 100, k at level 200).

(** [SUPPRESS] is a string that argparse tells from other strings by
    identity ([is SUPPRESS]): where an attribute can hold that object (the
    [dest] and the [default] of an action, the values an action receives) it
    is [None] here. No string of the command line or of a docstring is that
    object. *)
Definition SUPPRESS : string := "==SUPPRESS==".
Definition _UNRECOGNIZED_ARGS_ATTR : string := "_unrecognized_args".

Definition Namespace := Dict.t value.

(** [setattr(namespace, name, v)] *)
Definition setattr (ns : Namespace) (name : string) (v : value) : Namespace :=
  Dict.set name v ns.


Section WithBuiltins.
Context `{B : Builtins}.

Inductive ActionKind :=
| Help         (** [_HelpAction] *)
| StoreTrue    (** [_StoreTrueAction] *)
| Store        (** [_StoreAction] *)
| SubParsers.  (** [_SubParsersAction] *)

Record Action := {
  kind : ActionKind;
  option_strings : list string;
  dest : option string;
  nargs : Nargs;
  const : value;
  default : option value;
  type : option builtin;
  required : bool;
  help : option string
}.

Definition with_default (a : Action) (v : option value) : Action :=
  {| kind := kind a; option_strings := option_strings a; dest := dest a;
     nargs := nargs a; const := const a; default := v; type := type a;
     required := required a; help := help a |}.

(** An [ArgumentParser]. Actions are identified by their position in
    [_actions]; [_option_string_actions] maps an option string to the
    position of its action. *)
Record ArgumentParser := {
  prog : list string;
  description : option string;
  _actions : list Action;
  _option_string_actions : Dict.t nat;
  _defaults : Dict.t value;
  _has_negative_number_optionals : bool
}.

Definition is_prefix_char (c : ascii) : bool := Ascii.eqb c "-"%char.

(** A string that does not start with [-]. *)
Definition plain (s : string) : bool :=
  match s with
  | EmptyString => true
  | String c _ => negb (is_prefix_char c)
  end.

(** A string that is an argument for every parser: not empty, and not
    starting with [-]. *)
Definition word (s : string) : bool :=
  match s with
  | EmptyString => false
  | String c _ => negb (is_prefix_char c)
  end.

(** [_negative_number_matcher.match(s)] for ['^-\d+$|^-\d*\.\d+$'] *)
Definition looks_like_negative_number (s : string) : bool :=
  match Str.chomp s with
  | String c body =>
      is_prefix_char c
      && ((negb (String.eqb body "") && Str.all_digits body) || Str.is_fraction body)
  | EmptyString => false
  end.

(** The attribute name [setattr(namespace, action.dest, ...)] writes. *)
Definition dest_name (a : Action) : string :=
  match dest a with Some d => d | None => SUPPRESS end.

(** [_get_nargs_pattern] *)
Definition _get_nargs_pattern (a : Action) : list atom :=
  match option_strings a with
  | [] => positional_pattern (nargs a)
  | _ :: _ => strip_dashes (positional_pattern (nargs a))
  end.

(** [_get_action_name] *)
Definition _get_action_name (a : Action) : option string :=
  match option_strings a with
  | _ :: _ => Some (Str.join "/" (option_strings a))
  | [] => dest a
  end.

(** *** Building a parser *)

Definition help_action : Action :=
  {| kind := Help; option_strings := ["-h"; "--help"]; dest := None;
     nargs := N0; const := VNone; default := None; type := None;
     required := false; help := Some "show this help message and exit" |}.

(** [ArgumentParser(prog=..., description=...)], with [add_help=True] *)
Definition new_parser (prog : list string) (description : option string)
  : ArgumentParser :=
  {| prog := prog; description := description;
     _actions := [help_action];
     _option_string_actions := [("-h", 0); ("--help", 0)];
     _defaults := [];
     _has_negative_number_optionals := false |}.

(** The keyword arguments [ScriptCommands] passes besides [help]:
    [action="store_true"], or [nargs] and [type]. *)
Inductive optional_params :=
| store_true
| nargs_type (n : Nargs) (t : builtin).

(** [_add_action]: conflicting option strings are an error (the default
    conflict handler); otherwise the action is appended and indexed. *)
Definition _add_action (p : ArgumentParser) (a : Action) : result ArgumentParser :=
  match filter (fun o => Dict.mem o (_option_string_actions p)) (option_strings a) with
  | (_ :: _) as confl =>
      Raise (ArgumentError (_get_action_name a) (conflicting_option_string confl))
  | [] =>
      let i := length (_actions p) in
      Return
        {| prog := prog p; description := description p;
           _actions := _actions p ++ [a];
           _option_string_actions :=
             fold_left (fun d o => Dict.set o i d) (option_strings a)
                       (_option_string_actions p);
           _defaults := _defaults p;
           _has_negative_number_optionals :=
             _has_negative_number_optionals p
             || existsb looks_like_negative_number (option_strings a) |}
  end.

(** [_StoreTrueAction(option_strings, dest, default, required, help)] *)
Definition store_true_action (opts : list string) (dest : string) (default : value)
    (required : bool) (help : option string) : Action :=
  {| kind := StoreTrue; option_strings := opts; dest := Some dest; nargs := N0;
     const := VBool true; default := Some default; type := None;
     required := required; help := help |}.

(** [_StoreAction(option_strings, dest, nargs, type, default, required, help)] *)
Definition store_action (opts : list string) (dest : string) (n : Nargs)
    (t : builtin) (default : value) (required : bool) (help : option string)
  : Action :=
  {| kind := Store; option_strings := opts; dest := Some dest; nargs := n;
     const := VNone; default := Some default; type := Some t;
     required := required; help := help |}.

(** [parser.add_argument(name, help=help, **params)] *)
Definition add_argument (p : ArgumentParser) (name : string) (help : option string)
    (params : optional_params) : result ArgumentParser :=
  match name with
  | EmptyString => Raise IndexError
  | String c _ =>
      let positional := negb (is_prefix_char c) in
      let dest_ :=
        if positional then name
        else Str.replace "-" "_" (Str.lstrip "-" name) in
      if negb positional && String.eqb (Str.lstrip "-" name) "" then Raise ValueError
      else
        let opts := if positional then [] else [name] in
        let default_of (class_default : value) :=
          match Dict.get dest_ (_defaults p) with
          | Some v => v
          | None => class_default
          end in
        match params with
        | store_true =>
            _add_action p
              (store_true_action opts dest_ (default_of (VBool false)) positional help)
        | nargs_type n t =>
            match n with
            | N0 => Raise ValueError
            | _ =>
                if negb (callable t) then Raise ValueError
                else
                  _add_action p
                    (store_action opts dest_ n t (default_of VNone)
                       (positional
                        && match n with OPTIONAL => false | _ => true end)
                       help)
            end
        end
  end.

(** [parser.set_defaults(name=v)] for one keyword *)
Definition set_defaults (p : ArgumentParser) (name : string) (v : value)
  : ArgumentParser :=
  {| prog := prog p; description := description p;
     _actions :=
       map (fun a =>
              match dest a with
              | Some d => if String.eqb d name then with_default a (Some v) else a
              | None => a
              end)
           (_actions p);
     _option_string_actions := _option_string_actions p;
     _defaults := Dict.set name v (_defaults p);
     _has_negative_number_optionals := _has_negative_number_optionals p |}.

(** The sub-parsers action: its parsers by name, and the entries it lists
    in the help. *)
Record SubParsersAction := {
  _name_parser_map : Dict.t ArgumentParser;
  _choices_actions : list (string * option string)
}.

(** [subparsers.add_parser(name, help=help, description=description)].
    The new parser is returned by name: it is the entry of
    [_name_parser_map] under [name]. *)
Definition add_parser (sp : SubParsersAction) (name : string)
    (help description : option string) : result SubParsersAction :=
  if Dict.mem name (_name_parser_map sp)
  then Raise (ArgumentError (Some "cmd") (conflicting_subparser name))
  else Return
         {| _name_parser_map :=
              Dict.set name (new_parser [name] description) (_name_parser_map sp);
            _choices_actions := _choices_actions sp ++ [(name, help)] |}.

(** [parser.add_subparsers(dest="cmd", ...)]: the action the top-level
    parser gets. *)
Definition subparsers_action : Action :=
  {| kind := SubParsers; option_strings := []; dest := Some "cmd"; nargs := PARSER;
     const := VNone; default := Some VNone; type := None; required := false;
     help := None |}.

(** [ArgumentParser()] followed by [add_subparsers(dest="cmd", ...)] *)
Definition new_top_parser : ArgumentParser :=
  {| prog := []; description := None;
     _actions := [help_action; subparsers_action];
     _option_string_actions := [("-h", 0); ("--help", 0)];
     _defaults := [];
     _has_negative_number_optionals := false |}.

(** ** Parsing *)

(** [parser.error(message)]: usage and message on the standard error,
    then [sys.exit(2)]. An [ArgumentError] caught by [parse_known_args] is
    reported the same way, with the argument's name. *)
Definition error {A : Type} (p : ArgumentParser) (argument_name : option string)
    (m : message) : presult A :=
  PExit 2 [Stderr (UsageOf (prog p)); Stderr (ErrorOf (prog p) argument_name m)].

(** An argument string recognised as an option: the position of its action
    ([None] when no option of this parser matches), the option string and
    the explicit argument ([--opt=arg], [-oarg]). *)
Definition option_tuple : Type := option nat * string * option string.

(** The pattern character of an argument string, with what
    [option_string_indices] records for an ['O']. *)
Inductive token :=
| tA
| tDash
| tO (t : option_tuple).

(** Plain strings as [classify] marks them: all arguments. *)
Definition as_arguments (tokens : list string) : list (string * token) :=
  map (fun s => (s, tA)) tokens.

Definition pattern_char (t : token) : pchar :=
  match t with tA => pA | tDash => pDash | tO _ => pO end.

Definition arg_strings_pattern (toks : list (string * token)) : list pchar :=
  map (fun st => pattern_char (snd st)) toks.

Fixpoint mapM {X Y : Type} (f : X -> presult Y) (l : list X) : presult (list Y) :=
  match l with
  | [] => POk []
  | x :: l' =>
      let* y := f x in
      let* ys := mapM f l' in
      POk (y :: ys)
  end.

(** [list.remove(x)] without the [ValueError]: drop the first [x]. *)
Fixpoint remove_first (x : string) (l : list string) : list string :=
  match l with
  | [] => []
  | y :: l' => if String.eqb x y then l' else y :: remove_first x l'
  end.

Section Parser.

(** The parser, the [choices] of its actions and what calling an action
    does ([action(parser, namespace, values, option_string)]). *)
Variable parser : ArgumentParser.
Variable choices : Action -> option (list string).
Variable invoke : Action -> Namespace -> value -> presult Namespace.

(** [_get_option_tuples]: abbreviations of long options, and short options
    glued to their argument. Called on strings of at least two characters
    that start with [-]. *)
Definition _get_option_tuples (option_string : string) : list option_tuple :=
  match option_string with
  | String c0 (String c1 rest) =>
      if is_prefix_char c0 && is_prefix_char c1 then
        let '(option_prefix, explicit_arg) :=
          match Str.split1 "="%char option_string with
          | Some (l, r) => (l, Some r)
          | None => (option_string, None)
          end in
        flat_map
          (fun oi : string * nat =>
             if Str.startswith (fst oi) option_prefix
             then [(Some (snd oi), fst oi, explicit_arg)] else [])
          (_option_string_actions parser)
      else if is_prefix_char c0 then
        let short_option_prefix := String c0 (String c1 EmptyString) in
        flat_map
          (fun oi : string * nat =>
             if String.eqb (fst oi) short_option_prefix
             then [(Some (snd oi), fst oi, Some rest)]
             else if Str.startswith (fst oi) option_string
             then [(Some (snd oi), fst oi, None)] else [])
          (_option_string_actions parser)
      else []
  | _ => []
  end.

(** [_parse_optional]: [None] for a positional argument. *)
Definition _parse_optional (arg_string : string) : presult (option option_tuple) :=
  match arg_string with
  | EmptyString => POk None
  | String c tail =>
      if negb (is_prefix_char c) then POk None
      else
        match Dict.get arg_string (_option_string_actions parser) with
        | Some i => POk (Some (Some i, arg_string, None))
        | None =>
            if String.eqb tail "" then POk None
            else
              let explicit :=
                match Str.split1 "="%char arg_string with
                | Some (option_string, explicit_arg) =>
                    match Dict.get option_string (_option_string_actions parser) with
                    | Some i => Some (Some i, option_string, Some explicit_arg)
                    | None => None
                    end
                | None => None
                end in
              match explicit with
              | Some t => POk (Some t)
              | None =>
                  match _get_option_tuples arg_string with
                  | (_ :: _ :: _) as option_tuples =>
                      error parser None
                        (ambiguous_option arg_string
                           (map (fun t : option_tuple => snd (fst t)) option_tuples))
                  | [option_tuple] => POk (Some option_tuple)
                  | [] =>
                      if looks_like_negative_number arg_string
                         && negb (_has_negative_number_optionals parser)
                      then POk None
                      else if Str.contains " "%char arg_string then POk None
                      else POk (Some (None, arg_string, None))
                  end
              end
        end
  end.

(** The first pass of [_parse_known_args]: every argument string after a
    [--] is an argument. *)
Fixpoint classify (arg_strings : list string) : presult (list (string * token)) :=
  match arg_strings with
  | [] => POk []
  | s :: rest =>
      if String.eqb s "--"
      then POk ((s, tDash) :: map (fun x => (x, tA)) rest)
      else
        let* t := _parse_optional s in
        let* r := classify rest in
        POk ((s, match t with None => tA | Some tu => tO tu end) :: r)
  end.

(** [_get_value]: convert one argument string. *)
Definition _get_value (a : Action) (arg_string : string) : presult value :=
  match type a with
  | None => POk (VStr arg_string)
  | Some t =>
      if negb (callable t)
      then PError (ArgumentError (_get_action_name a) not_callable)
      else
        match call t arg_string with
        | Converted v => POk v
        | Rejected =>
            PError (ArgumentError (_get_action_name a) (invalid_value arg_string))
        | Thrown e => PError e
        end
  end.

(** [_check_value] *)
Definition _check_value (a : Action) (v : value) : presult unit :=
  match choices a with
  | None => POk tt
  | Some l =>
      match v with
      | VStr s =>
          if existsb (String.eqb s) l then POk tt
          else PError (ArgumentError (_get_action_name a) (invalid_choice s))
      | _ => PError (ArgumentError (_get_action_name a) (invalid_choice ""))
      end
  end.

(** [_get_values]: the value an action receives for its argument strings. *)
Definition _get_values (a : Action) (arg_strings : list string)
  : presult (option value) :=
  let arg_strings :=
    match nargs a with
    | PARSER => arg_strings
    | _ => remove_first "--" arg_strings
    end in
  match arg_strings, nargs a with
  | [], OPTIONAL =>
      let v := match option_strings a with
               | _ :: _ => Some (const a)
               | [] => default a
               end in
      let converted (s : string) :=
        let* v' := _get_value a s in
        let* _ := _check_value a v' in
        POk (Some v') in
      match v with
      | Some (VStr s) => converted s
      | Some v => POk (Some v)
      | None =>
          (* [SUPPRESS] is a string: it is converted, and [str] and the
             identity give the same object back *)
          match type a with
          | None | Some py_str => POk None
          | Some _ => converted SUPPRESS
          end
      end
  | [arg_string], OPTIONAL =>
      let* v := _get_value a arg_string in
      let* _ := _check_value a v in
      POk (Some v)
  | _, PARSER =>
      let* vs := mapM (_get_value a) arg_strings in
      match vs with
      | v :: _ => let* _ := _check_value a v in POk (Some (VList vs))
      | [] => PError IndexError
      end
  | _, _ =>
      let* vs := mapM (_get_value a) arg_strings in
      let* _ := mapM (_check_value a) vs in
      POk (Some (VList vs))
  end.

(** [_match_argument]: how many argument strings an optional takes. *)
Definition _match_argument (a : Action) (pattern : list pchar) : presult nat :=
  match re_match [_get_nargs_pattern a] pattern with
  | Some [n] => POk n
  | _ =>
      PError
        (ArgumentError (_get_action_name a)
           match nargs a with
           | OPTIONAL => expected_at_most_one_argument
           | ONE_OR_MORE => expected_at_least_one_argument
           | N0 => expected_n_arguments 0
           | PARSER => expected_n_arguments 1
           end)
  end.

(** [_match_arguments_partial]: the longest prefix of the positionals
    whose patterns match, tried from [i] actions down to one. *)
Fixpoint match_partial_from (i : nat) (actions : list Action) (pattern : list pchar)
  : list nat :=
  match i with
  | 0 => []
  | S i' =>
      match re_match (map _get_nargs_pattern (firstn i actions)) pattern with
      | Some counts => counts
      | None => match_partial_from i' actions pattern
      end
  end.

Definition _match_arguments_partial (actions : list Action) (pattern : list pchar)
  : list nat :=
  match_partial_from (length actions) actions pattern.

(** The variables of [_parse_known_args] its inner functions update. *)
Record pstate := {
  namespace : Namespace;
  seen_actions : list nat;
  positionals : list (nat * Action);
  extras : list string
}.

Definition with_namespace (st : pstate) (ns : Namespace) : pstate :=
  {| namespace := ns; seen_actions := seen_actions st;
     positionals := positionals st; extras := extras st |}.

Definition with_seen (st : pstate) (i : nat) : pstate :=
  {| namespace := namespace st; seen_actions := i :: seen_actions st;
     positionals := positionals st; extras := extras st |}.

Definition with_positionals (st : pstate) (l : list (nat * Action)) : pstate :=
  {| namespace := namespace st; seen_actions := seen_actions st;
     positionals := l; extras := extras st |}.

Definition with_extras (st : pstate) (l : list string) : pstate :=
  {| namespace := namespace st; seen_actions := seen_actions st;
     positionals := positionals st; extras := extras st ++ l |}.

(** [take_action] *)
Definition take_action (st : pstate) (ia : nat * Action)
    (argument_strings : list string) : presult pstate :=
  let st := with_seen st (fst ia) in
  let* argument_values := _get_values (snd ia) argument_strings in
  match argument_values with
  | None => POk st
  | Some values =>
      let* ns := invoke (snd ia) (namespace st) values in
      POk (with_namespace st ns)
  end.

Fixpoint take_actions (st : pstate) (tuples : list ((nat * Action) * list string))
  : presult pstate :=
  match tuples with
  | [] => POk st
  | (ia, args) :: tuples' =>
      let* st' := take_action st ia args in
      take_actions st' tuples'
  end.

(** [consume_optional], the branch without explicit argument: the option
    takes what its pattern matches of the argument strings that follow.
    Returns the actions to take and how many following strings are used. *)
Definition match_following (ia : nat * Action) (following : list (string * token))
  : presult (list ((nat * Action) * list string) * nat) :=
  let* arg_count := _match_argument (snd ia) (arg_strings_pattern following) in
  POk ([(ia, map fst (firstn arg_count following))], arg_count).

(** [consume_optional], the loop over an explicit argument: [--opt=arg]
    gives the option its argument; a single-dash option that takes none
    starts a cluster ([-xyz] is [-x -y -z]). *)
Fixpoint match_explicit (ia : nat * Action) (option_string explicit_arg : string)
    (following : list (string * token))
  : presult (list ((nat * Action) * list string) * nat) :=
  let ignored :=
    PError (ArgumentError (_get_action_name (snd ia))
                          (ignored_explicit_argument explicit_arg)) in
  let* arg_count := _match_argument (snd ia) [pA] in
  let single_dash :=
    match option_string with
    | String _ (String c1 _) => negb (is_prefix_char c1)
    | _ => false
    end in
  match arg_count, single_dash, explicit_arg with
  | 0, true, String c rest =>
      let option_string' := String "-"%char (String c EmptyString) in
      match Dict.get option_string' (_option_string_actions parser) with
      | Some i' =>
          match nth_error (_actions parser) i' with
          | Some a' =>
              let* r :=
                match rest with
                | EmptyString => match_following (i', a') following
                | _ => match_explicit (i', a') option_string' rest following
                end in
              POk ((ia, []) :: fst r, snd r)
          | None => PError (OtherError "KeyError")
          end
      | None => ignored
      end
  | 1, _, _ => POk ([(ia, [explicit_arg])], 0)
  | _, _, _ => ignored
  end.

(** [consume_optional(start_index)], on the argument strings from
    [start_index] on (the first is an option); returns what follows the
    strings it used. *)
Definition consume_optional (st : pstate) (toks : list (string * token))
  : presult (pstate * list (string * token)) :=
  match toks with
  | (arg_string, tO (action, option_string, explicit_arg)) :: following =>
      match action with
      | None => POk (with_extras st [arg_string], following)
      | Some i =>
          match nth_error (_actions parser) i with
          | Some a =>
              let* r :=
                match explicit_arg with
                | Some e => match_explicit (i, a) option_string e following
                | None => match_following (i, a) following
                end in
              let* st' := take_actions st (fst r) in
              POk (st', skipn (snd r) following)
          | None => PError (OtherError "KeyError")
          end
      end
  | _ => POk (st, toks)
  end.

Fixpoint take_positionals (st : pstate) (actions : list (nat * Action))
    (arg_counts : list nat) (toks : list (string * token))
  : presult (pstate * list (string * token)) :=
  match actions, arg_counts with
  | ia :: actions', n :: arg_counts' =>
      let* st' := take_action st ia (map fst (firstn n toks)) in
      take_positionals st' actions' arg_counts' (skipn n toks)
  | _, _ => POk (st, toks)
  end.

(** [consume_positionals(start_index)] *)
Definition consume_positionals (st : pstate) (toks : list (string * token))
  : presult (pstate * list (string * token)) :=
  let arg_counts :=
    _match_arguments_partial (map snd (positionals st)) (arg_strings_pattern toks) in
  let* r := take_positionals st (positionals st) arg_counts toks in
  POk (with_positionals (fst r) (skipn (length arg_counts) (positionals st)), snd r).

(** Distance to the next option string, if there is one. *)
Fixpoint next_option_string_index (toks : list (string * token)) : option nat :=
  match toks with
  | [] => None
  | (_, tO _) :: _ => Some 0
  | _ :: toks' => option_map S (next_option_string_index toks')
  end.

(** The loop [while start_index <= max_option_string_index], on the
    argument strings from [start_index] on. Every turn uses at least one
    of them, so [fuel] = their number is enough; [None] when it runs out. *)
Fixpoint consume_loop (fuel : nat) (st : pstate) (toks : list (string * token))
  : option (presult (pstate * list (string * token))) :=
  match next_option_string_index toks with
  | None => Some (POk (st, toks))
  | Some k =>
      match fuel with
      | 0 => None
      | S fuel' =>
          let continue (r : presult (pstate * list (string * token))) :=
            match r with
            | POk (st', toks') => consume_loop fuel' st' toks'
            | PError e => Some (PError e)
            | PExit c o => Some (PExit c o)
            end in
          match k with
          | 0 => continue (consume_optional st toks)
          | S _ =>
              match consume_positionals st toks with
              | POk (st', toks') =>
                  if Nat.ltb (length toks') (length toks)
                  then consume_loop fuel' st' toks'
                  else
                    continue
                      (consume_optional
                         (with_extras st' (map fst (firstn k toks')))
                         (skipn k toks'))
              | PError e => Some (PError e)
              | PExit c o => Some (PExit c o)
              end
          end
      end
  end.

Definition indexed {X : Type} (l : list X) : list (nat * X) :=
  combine (seq 0 (length l)) l.

(** The closing loop over [_actions]: names of the required actions not
    seen, and conversion of string defaults still in the namespace (the
    namespace never holds the object [SUPPRESS], the default of the help
    action). *)
Fixpoint check_actions (actions : list (nat * Action)) (seen : list nat)
    (ns : Namespace) (required_actions : list (option string))
  : presult (Namespace * list (option string)) :=
  match actions with
  | [] => POk (ns, required_actions)
  | (i, a) :: actions' =>
      if existsb (Nat.eqb i) seen
      then check_actions actions' seen ns required_actions
      else if required a
      then check_actions actions' seen ns (required_actions ++ [_get_action_name a])
      else
        match default a, Dict.get (dest_name a) ns with
        | Some (VStr s), Some (VStr s') =>
            if String.eqb s s'
            then
              let* v := _get_value a s in
              check_actions actions' seen (setattr ns (dest_name a) v)
                            required_actions
            else check_actions actions' seen ns required_actions
        | _, _ => check_actions actions' seen ns required_actions
        end
  end.

(** [_parse_known_args(arg_strings, namespace)] *)
Definition _parse_known_args (arg_strings : list string) (ns : Namespace)
  : presult (Namespace * list string) :=
  let* toks := classify arg_strings in
  let st :=
    {| namespace := ns; seen_actions := [];
       positionals :=
         filter (fun ia : nat * Action =>
                   match option_strings (snd ia) with [] => true | _ => false end)
                (indexed (_actions parser));
       extras := [] |} in
  match consume_loop (length toks) st toks with
  | None => PError (OtherError "RecursionError")
  | Some r =>
      let* r1 := r in
      let* r2 := consume_positionals (fst r1) (snd r1) in
      let st' := with_extras (fst r2) (map fst (snd r2)) in
      let* r3 :=
        check_actions (indexed (_actions parser)) (seen_actions st')
                      (namespace st') [] in
      match snd r3 with
      | [] => POk (fst r3, extras st')
      | names => error parser None (required_arguments names)
      end
  end.

(** The strings of a list value; [None] when it is no list of strings. *)
Fixpoint strings_of (l : list value) : option (list string) :=
  match l with
  | [] => Some []
  | VStr s :: l' => option_map (cons s) (strings_of l')
  | _ :: _ => None
  end.

(** [parse_known_args(args)] with a fresh namespace *)
Definition parse_known_args (arg_strings : list string)
  : presult (Namespace * list string) :=
  let ns :=
    fold_left
      (fun (ns : Namespace) (a : Action) =>
         match dest a with
         | None => ns
         | Some d =>
             if Dict.mem d ns then ns
             else match default a with
                  | None => ns
                  | Some v => setattr ns d v
                  end
         end)
      (_actions parser) [] in
  let ns :=
    fold_left
      (fun (ns : Namespace) (dv : string * value) =>
         if Dict.mem (fst dv) ns then ns else setattr ns (fst dv) (snd dv))
      (_defaults parser) ns in
  match _parse_known_args arg_strings ns with
  | PError (ArgumentError name m) => error parser name m
  | PError e => PError e
  | PExit c o => PExit c o
  | POk (ns, args) =>
      match Dict.get _UNRECOGNIZED_ARGS_ATTR ns with
      | None => POk (ns, args)
      | Some (VList l) =>
          match strings_of l with
          | Some more => POk (Dict.remove _UNRECOGNIZED_ARGS_ATTR ns, args ++ more)
          | None => PError TypeError
          end
      | Some _ => PError TypeError
      end
  end.

(** [parse_args(args)] *)
Definition parse_args (arg_strings : list string) : presult Namespace :=
  let* r := parse_known_args arg_strings in
  match snd r with
  | [] => POk (fst r)
  | argv => error parser None (unrecognized_arguments argv)
  end.

End Parser.

(** The end of [_SubParsersAction.__call__]: the attributes of the
    sub-parser's namespace are copied, and its unrecognized argument strings
    are stored for the top-level parser. *)
Definition merge_subnamespace (ns : Namespace) (r : Namespace * list string)
  : Namespace :=
  let ns :=
    fold_left
      (fun (ns : Namespace) (kv : string * value) => setattr ns (fst kv) (snd kv))
      (fst r) ns in
  match snd r with
  | [] => ns
  | unrecognized =>
      let before :=
        match Dict.get _UNRECOGNIZED_ARGS_ATTR ns with
        | Some (VList l) => l
        | _ => []
        end in
      setattr ns _UNRECOGNIZED_ARGS_ATTR (VList (before ++ map VStr unrecognized))
  end.

(** The end of [parse_known_args] and [parse_args]: stored unrecognized
    argument strings are an error. *)
Definition reject_unrecognized (p : ArgumentParser) (ns : Namespace)
  : presult Namespace :=
  match Dict.get _UNRECOGNIZED_ARGS_ATTR ns with
  | None => POk ns
  | Some (VList l) =>
      match strings_of l with
      | Some [] => POk (Dict.remove _UNRECOGNIZED_ARGS_ATTR ns)
      | Some argv => error p None (unrecognized_arguments argv)
      | None => PError TypeError
      end
  | Some _ => PError TypeError
  end.

(** ** Calling an action

    [parse_sub] gives the [parse_known_args] of the parser registered under
    a name; only a sub-parsers action uses it. *)
Definition call_action (p : ArgumentParser)
    (parse_sub : string -> option (list string -> presult (Namespace * list string)))
    (a : Action) (ns : Namespace) (values : value) : presult Namespace :=
  match kind a with
  | Help => PExit 0 [Stdout (HelpOf (prog p))]
  | StoreTrue => POk (setattr ns (dest_name a) (const a))
  | Store => POk (setattr ns (dest_name a) values)
  | SubParsers =>
      match values with
      | VList (VStr parser_name :: arg_values) =>
          let ns :=
            match dest a with
            | None => ns
            | Some d => setattr ns d (VStr parser_name)
            end in
          match parse_sub parser_name, strings_of arg_values with
          | Some parse, Some arg_strings =>
              let* r := parse arg_strings in
              POk (merge_subnamespace ns r)
          | None, _ =>
              PError (ArgumentError (_get_action_name a) (unknown_parser parser_name))
          | _, None => PError TypeError
          end
      | _ => PError TypeError
      end
  end.

(** A sub-command's parser has no sub-parsers of its own. *)
Definition sub_parse_known_args (p : ArgumentParser) (arg_strings : list string)
  : presult (Namespace * list string) :=
  parse_known_args p (fun _ => None) (call_action p (fun _ => None)) arg_strings.

(** The choices of the sub-parsers action are the registered names. *)
Definition top_choices (sp : SubParsersAction) (a : Action) : option (list string) :=
  match kind a with
  | SubParsers => Some (Dict.keys (_name_parser_map sp))
  | _ => None
  end.

(** [parser.parse_args(argv)] on the top-level parser *)
Definition top_parse_args (p : ArgumentParser) (sp : SubParsersAction)
    (argv : list string) : presult Namespace :=
  parse_args p (top_choices sp)
    (call_action p
       (fun name =>
          option_map sub_parse_known_args (Dict.get name (_name_parser_map sp))))
    argv.

End WithBuiltins.

End Argparse.


(* ===================================================================== *)
(** * docstring_parser *)
(* ===================================================================== *)

Module DocstringParser.
Import Py.

(** [DocstringParam]: the attributes [ScriptCommands] reads. *)
Record DocstringParam := {
  arg_name : string;
  type_name : option string;
  is_optional : option bool;
  description : option string
}.

(** [Docstring] *)
Record Docstring := {
  short_description : option string;
  long_description : option string;
  params : list DocstringParam
}.

(** [Docstring()]: nothing parsed. *)
Definition empty : Docstring :=
  {| short_description := None; long_description := None; params := [] |}.

(** Parsing of a non-empty documentation text, in whatever docstring style
    it is written: the result, or the [ParseError] raised. *)
Class TextParser := {
  parse_text : string -> result Docstring
}.

(** [parse(text)]. Each style's parser starts with
    [ret = Docstring(); if not text: return ret], so that a missing ([None])
    or empty text gives the empty [Docstring]. *)
Definition parse `{TextParser} (text : option string) : result Docstring :=
  match text with
  | None => Return empty
  | Some EmptyString => Return empty
  | Some t => parse_text t
  end.

End DocstringParser.


(* ===================================================================== *)
(** * cli_script_commands.ScriptCommands *)
(* ===================================================================== *)

Module ScriptCommands.
Import Py Argparse DocstringParser.

Section WithCollaborators.
Context `{B : Builtins} `{T : TextParser}.

(** The instance attributes. [_subparsers] is the sub-parsers action of
    [_parser]; a sub-command's parser is the entry of its
    [_name_parser_map] under the command's name. *)
Record t := {
  _parser : ArgumentParser;
  _subparsers : SubParsersAction;
  _args : option Namespace
}.

(** The process: the object and what was written to the standard streams. *)
Record state := {
  self : t;
  console : list output
}.

(** A method: an outcome and the state it leaves, also when it raises. *)
Definition M (A : Type) : Type := state -> result A * state.

Definition ret {A : Type} (a : A) : M A := fun s => (Return a, s).

Definition raise {A : Type} (e : exn) : M A := fun s => (Raise e, s).

Definition bind {A C : Type} (m : M A) (k : A -> M C) : M C :=
  fun s =>
    match m s with
    | (Return a, s') => k a s'
    | (Raise e, s') => (Raise e, s')
    end.

Notation "x <- m ;; k" := (bind m (fun x => k))
  (at level 61, m at next level, right associativity).
Notation "m ;;; k" := (bind m (fun _ => k))
  (at level 61, right associativity).

(** A call without effect on the state. *)
Definition lift {A : Type} (r : result A) : M A := fun s => (r, s).

(** [print(...)] and the parsers' writes *)
Definition write (o : list output) : M unit :=
  fun s => (Return tt, {| self := self s; console := console s ++ o |}).

Definition get_self : M t := fun s => (Return (self s), s).

Definition set_subparsers (sp : SubParsersAction) : M unit :=
  fun s =>
    (Return tt,
     {| self := {| _parser := _parser (self s); _subparsers := sp;
                   _args := _args (self s) |};
        console := console s |}).

Definition set_args (ns : Namespace) : M unit :=
  fun s =>
    (Return tt,
     {| self := {| _parser := _parser (self s);
                   _subparsers := _subparsers (self s);
                   _args := Some ns |};
        console := console s |}).

(** [__init__] *)
Definition __init__ : t :=
  {| _parser := new_top_parser;
     _subparsers := {| _name_parser_map := []; _choices_actions := [] |};
     _args := None |}.

(** The dictionaries [add_function] builds: one per argument, and the
    command's settings. *)
Record arg_settings := {
  arg_display_name : string;      (** ["name"] *)
  arg_type : builtin;             (** ["type"] *)
  arg_help : option string        (** ["help"] *)
}.

Record command_settings := {
  name : string;                  (** ["name"] *)
  help : option string;           (** ["help"] *)
  long_help : option string;      (** ["long_help"] *)
  function : Py.function;         (** ["function"] *)
  args : list arg_settings        (** ["args"] *)
}.

(** [a or b] on optional strings *)
Definition or_else (a b : option string) : option string :=
  if truthy (of_opt_string a) then a else b.

(** Apply a mutating method to the parser of sub-command [name]. *)
Definition on_subparser (name : string)
    (method : ArgumentParser -> result ArgumentParser) : M unit :=
  me <- get_self ;;
  match Dict.get name (_name_parser_map (_subparsers me)) with
  | None => raise (OtherError "KeyError")
  | Some subparser =>
      subparser' <- lift (method subparser) ;;
      set_subparsers
        {| _name_parser_map :=
             Dict.set name subparser' (_name_parser_map (_subparsers me));
           _choices_actions := _choices_actions (_subparsers me) |}
  end.

(** The loop of [_add_command] that renders the arguments of a function. *)
Fixpoint add_arguments (subparser : string) (args : list arg_settings) : M unit :=
  match args with
  | [] => ret tt
  | arg :: args' =>
      let optional_params :=
        if eq_bool (arg_type arg) then store_true
        else if eq_list (arg_type arg) then nargs_type ONE_OR_MORE py_str
        else nargs_type OPTIONAL (arg_type arg) in
      on_subparser subparser
        (fun p => add_argument p (arg_display_name arg) (arg_help arg) optional_params) ;;;
      add_arguments subparser args'
  end.

(** [_add_command] *)
Definition _add_command (command_settings : command_settings) : M unit :=
  me <- get_self ;;
  subparsers' <- lift (add_parser (_subparsers me) (name command_settings)
                                  (help command_settings)
                                  (long_help command_settings)) ;;
  set_subparsers subparsers' ;;;
  let subparser := name command_settings in
  add_arguments subparser (args command_settings) ;;;
  on_subparser subparser
    (fun p => Return (set_defaults p "func" (VFunc (function command_settings)))).

(** The list comprehension of [add_function]: the argument settings, in
    the order of the documented parameters. *)
Fixpoint arg_settings_of (params : list DocstringParam) : result (list arg_settings) :=
  match params with
  | [] => Return []
  | pa :: params' =>
      match getattr_builtins (type_name pa) with
      | Raise e => Raise e
      | Return ty =>
          match arg_settings_of params' with
          | Raise e => Raise e
          | Return rest =>
              Return
                ({| arg_display_name :=
                      (if truthy (match is_optional pa with
                                  | Some b => VBool b
                                  | None => VNone
                                  end)
                       then "--" else "") ++ arg_name pa;
                    arg_type := ty;
                    arg_help := description pa |} :: rest)
          end
      end
  end.

(** [add_function] *)
Definition add_function (function : Py.function) : M unit :=
  parsed_doc_string <- lift (parse (__doc__ function)) ;;
  args <- lift (arg_settings_of (params parsed_doc_string)) ;;
  let func_spec :=
    {| name := __name__ function;
       help := short_description parsed_doc_string;
       long_help := or_else (long_description parsed_doc_string)
                            (short_description parsed_doc_string);
       function := function;
       args := args |} in
  _add_command func_spec.

(** [render_menu], on the process's argument vector [sys.argv[1:]] *)
Definition render_menu (argv : list string) : M unit :=
  me <- get_self ;;
  match top_parse_args (_parser me) (_subparsers me) argv with
  | PError e => raise e
  | PExit code printed => write printed ;;; raise (SystemExit code)
  | POk ns =>
      set_args ns ;;;
      match Dict.get "cmd" ns with
      | None => raise AttributeError
      | Some cmd =>
          if negb (truthy cmd) then
            write [Stdout (Line "no arguments passed to cli")] ;;;
            write [Stdout (HelpOf (prog (_parser me)))] ;;;
            raise NoArgumentsPassed
          else ret tt
      end
  end.

(** The call [execute] makes: [callee] applied to the keyword arguments
    [kwargs]. What it returns or raises is the callee's business. *)
Record invocation := {
  callee : value;
  kwargs : Dict.t value
}.

(** The dictionary comprehension of [execute] *)
Definition arg_dict (ns : Namespace) : Dict.t value :=
  filter
    (fun kv : string * value =>
       negb (String.eqb (fst kv) "cmd" || String.eqb (fst kv) "func")
       && negb (is_None (snd kv)))
    ns.

(** [execute] *)
Definition execute : M invocation :=
  me <- get_self ;;
  match _args me with
  | None => raise TypeError
  | Some ns =>
      match Dict.get "func" ns with
      | None => raise AttributeError
      | Some func => ret {| callee := func; kwargs := arg_dict ns |}
      end
  end.


(** ** The life of a registry *)

(** One call of a public method. *)
Inductive step : state -> state -> Prop :=
| step_add_function f r s s' :
    add_function f s = (r, s') -> step s s'
| step_render_menu argv r s s' :
    render_menu argv s = (r, s') -> step s s'
| step_execute r s s' :
    execute s = (r, s') -> step s s'.

(** The states of a process that creates a [ScriptCommands] and calls its
    methods, whatever they raise. *)
Inductive reachable : state -> Prop :=
| reachable_init out :
    reachable {| self := __init__; console := out |}
| reachable_step s s' :
    reachable s -> step s s' -> reachable s'.

(** [f] is a registered command: [add_function f] returned once, and any
    calls followed. *)
Inductive registered (f : Py.function) : state -> Prop :=
| registered_now s s' :
    reachable s -> add_function f s = (Return tt, s') -> registered f s'
| registered_step s s' :
    registered f s -> step s s' -> registered f s'.

(** The settings [add_function] passes to [_add_command]. *)
Definition settings_of (f : Py.function) (d : Docstring) (args : list arg_settings)
  : command_settings :=
  {| name := __name__ f;
     help := short_description d;
     long_help := or_else (long_description d) (short_description d);
     function := f;
     args := args |}.

(** The keyword arguments [_add_command] chooses for an argument. *)
Definition optional_params_of (arg : arg_settings) : optional_params :=
  if eq_bool (arg_type arg) then store_true
  else if eq_list (arg_type arg) then nargs_type ONE_OR_MORE py_str
  else nargs_type OPTIONAL (arg_type arg).

(** The arguments of a sub-command's parser, added one after the other. *)
Fixpoint with_arguments (p : ArgumentParser) (args : list arg_settings)
  : result ArgumentParser :=
  match args with
  | [] => Return p
  | arg :: args' =>
      match add_argument p (arg_display_name arg) (arg_help arg)
                         (optional_params_of arg) with
      | Return p' => with_arguments p' args'
      | Raise e => Raise e
      end
  end.

(** The parser [_add_command] leaves under the command's name when it
    returns. *)
Definition subparser_of (c : command_settings) : result ArgumentParser :=
  match with_arguments (new_parser [name c] (long_help c)) (args c) with
  | Return p => Return (set_defaults p "func" (VFunc (function c)))
  | Raise e => Raise e
  end.

(** The option string of a parameter documented as optional. *)
Definition option_of (name : string) : string := ("--" ++ name)%string.

(** Whether a parameter is documented as optional: [pa.is_optional] is
    [True], and neither [False] nor [None]. *)
Definition documented_optional (pa : DocstringParam) : bool :=
  truthy (match is_optional pa with Some b => VBool b | None => VNone end).

(** The action [_add_command] configures for a documented parameter of
    type [ty]: a flag, one or more strings, or at most one value of the
    type; an option [--name] when the parameter is documented as optional,
    a positional argument otherwise. *)
Definition action_for (pa : DocstringParam) (ty : builtin) : Action :=
  let optional := documented_optional pa in
  let opts := if optional then [option_of (arg_name pa)] else [] in
  if eq_bool ty then
    store_true_action opts (arg_name pa) (VBool false) (negb optional)
                      (description pa)
  else if eq_list ty then
    store_action opts (arg_name pa) ONE_OR_MORE py_str VNone (negb optional)
                 (description pa)
  else
    store_action opts (arg_name pa) OPTIONAL ty VNone false (description pa).

(** The parser of a command with one argument [a], bound to [f]. *)
Definition parser_with (name : string) (description : option string)
    (a : Action) (f : Py.function) : ArgumentParser :=
  {| prog := [name]; Argparse.description := description;
     _actions := [help_action; a];
     _option_string_actions :=
       [("-h", 0); ("--help", 0)] ++ map (fun o => (o, 1)) (option_strings a);
     _defaults := [("func", VFunc f)];
     _has_negative_number_optionals := false |}.

(** What parsing one argument string [t] for the only parameter [n] of a
    command gives, by what the type [ty] makes of [t]; a rejected string is
    reported as an error of [argument_name]. *)
Definition converted (p : ArgumentParser) (n : string) (f : Py.function)
    (ty : builtin) (argument_name t : string) : presult (Namespace * list string) :=
  match call ty t with
  | Converted v => POk ([(n, v); ("func", VFunc f)], [])
  | Rejected => error p (Some argument_name) (invalid_value t)
  | Thrown (ArgumentError a m) => error p a m
  | Thrown e => PError e
  end.

(** What a returned [add_function] went through: the parsed docstring [d],
    the argument settings [args] and the parser [p] it leaves under the
    function's name. *)
Definition registration (f : Py.function) (d : Docstring)
    (args : list arg_settings) (p : ArgumentParser) : Prop :=
  parse (__doc__ f) = Return d
  /\ arg_settings_of (params d) = Return args
  /\ subparser_of (settings_of f d args) = Return p.

(** The state after [add_function] was called on each function of [fs],
    in order, whatever the calls raised. *)
Fixpoint register_all (fs : list Py.function) (s : state) : state :=
  match fs with
  | [] => s
  | f :: fs' => register_all fs' (snd (add_function f s))
  end.

(** The state after a [render_menu] that returned. *)
Definition parsed (s : state) (ns : Namespace) : state :=
  {| self := {| _parser := _parser (self s); _subparsers := _subparsers (self s);
                _args := Some ns |};
     console := console s |}.

(** The state [render_menu] leaves when it raises [NoArgumentsPassed]. *)
Definition after_no_arguments (s : state) (ns : Namespace) : state :=
  {| self := {| _parser := _parser (self s); _subparsers := _subparsers (self s);
                _args := Some ns |};
     console := console s
                ++ [Stdout (Line "no arguments passed to cli")]
                ++ [Stdout (HelpOf [])] |}.

(** ** Names *)

Definition is_identifier_char (c : ascii) : bool :=
  let n := nat_of_ascii c in
  ((65 <=? n)%nat && (n <=? 90)%nat) || ((97 <=? n)%nat && (n <=? 122)%nat)
  || Str.is_digit c || Ascii.eqb c "_"%char.

Fixpoint all_identifier_chars (s : string) : bool :=
  match s with
  | EmptyString => true
  | String c s' => is_identifier_char c && all_identifier_chars s'
  end.

(** [s.isidentifier()], for ASCII text *)
Definition identifier (s : string) : bool :=
  match s with
  | EmptyString => false
  | String c _ => negb (Str.is_digit c) && all_identifier_chars s
  end.

(** Attribute names of the parsed result with a use of their own: the two
    bookkeeping fields, and argparse's store of unrecognized arguments. *)
Definition reserved : list string := ["cmd"; "func"; _UNRECOGNIZED_ARGS_ATTR].

End WithCollaborators.

End ScriptCommands.


(* ===================================================================== *)
(** * A concrete environment *)
(* ===================================================================== *)

(** Collaborators for the examples: a [builtins] namespace with [int] next
    to [bool], [list] and [str], and the docstrings of three commands. *)
Module Example.
Import Py Argparse DocstringParser ScriptCommands.

Inductive other_builtin := py_int.

Fixpoint digits_value (s : string) (acc : Z) : Z :=
  match s with
  | EmptyString => acc
  | String c s' => digits_value s' (10 * acc + Z.of_nat (nat_of_ascii c - 48))%Z
  end.

(** [int(s)] for an optional sign followed by decimal digits *)
Definition int (s : string) : conversion :=
  let number (body : string) (sign : Z) :=
    if negb (String.eqb body "") && Str.all_digits body
    then Converted (VInt (sign * digits_value body 0))
    else Rejected in
  match s with
  | String c body =>
      if Ascii.eqb c "-"%char then number body (-1)%Z
      else if Ascii.eqb c "+"%char then number body 1%Z
      else number s 1%Z
  | EmptyString => Rejected
  end.

#[export] Instance builtins : Builtins := {|
  other := other_builtin;
  other_getattr := fun n => if String.eqb n "int" then Some py_int else None;
  other_callable := fun _ => true;
  other_call := fun _ => int
|}.

Definition param (n t : string) (optional : bool) (text : string) : DocstringParam :=
  {| arg_name := n; type_name := Some t; is_optional := Some optional;
     description := Some text |}.

Definition toggle_doc : string :=
  "Switch it.

Args:
    verbose (bool, optional): say more
".

Definition tag_doc : string :=
  "Tag it.

Args:
    names (list): the tags
".

Definition count_doc : string :=
  "Count.

Args:
    n (int): how many
".

Definition broken_doc : string :=
  "Broken.

Args:
    x (Widget): not a builtin
".

(** What docstring_parser makes of these texts. *)
#[export] Instance docstrings : TextParser := {|
  parse_text := fun text =>
    if String.eqb text toggle_doc then
      Return {| short_description := Some "Switch it."; long_description := None;
                params := [param "verbose" "bool" true "say more"] |}
    else if String.eqb text tag_doc then
      Return {| short_description := Some "Tag it."; long_description := None;
                params := [param "names" "list" false "the tags"] |}
    else if String.eqb text count_doc then
      Return {| short_description := Some "Count."; long_description := None;
                params := [param "n" "int" false "how many"] |}
    else if String.eqb text broken_doc then
      Return {| short_description := Some "Broken."; long_description := None;
                params := [param "x" "Widget" false "not a builtin"] |}
    else if String.eqb text "Do it." then
      Return {| short_description := Some "Do it."; long_description := None;
                params := [] |}
    else Raise (ParseError text)
|}.

Definition toggle : Py.function :=
  {| __name__ := "toggle"; __doc__ := Some toggle_doc; id := 1 |}.
Definition tag : Py.function :=
  {| __name__ := "tag"; __doc__ := Some tag_doc; id := 2 |}.
Definition count : Py.function :=
  {| __name__ := "count"; __doc__ := Some count_doc; id := 3 |}.
Definition run : Py.function :=
  {| __name__ := "run"; __doc__ := Some "Do it."; id := 4 |}.
Definition broken : Py.function :=
  {| __name__ := "broken"; __doc__ := Some broken_doc; id := 5 |}.
Definition undocumented : Py.function :=
  {| __name__ := "undocumented"; __doc__ := None; id := 6 |}.
Definition garbled : Py.function :=
  {| __name__ := "garbled"; __doc__ := Some "???"; id := 7 |}.

(** A fresh process. *)
Definition start : state := {| self := __init__; console := [] |}.

Definition menu : state := register_all [toggle; tag; count; run] start.

End Example.


(* ===================================================================== *)
(** * Properties *)
(* ===================================================================== *)

Module Properties.
Import Py Argparse DocstringParser ScriptCommands.

Section WithCollaborators.
Context `{B : Builtins} `{T : TextParser}.

(** ** Dictionaries *)

Lemma get_set_same (V : Type) k (v : V) d : Dict.get k (Dict.set k v d) = Some v.
Proof.
  induction d as [|[k' v'] d IH]; simpl.
  - now rewrite String.eqb_refl.
  - destruct (String.eqb k k') eqn:E; simpl.
    + now rewrite String.eqb_refl.
    + now rewrite E.
Qed.

Lemma get_set_other (V : Type) k k' (v : V) d :
  k <> k' -> Dict.get k (Dict.set k' v d) = Dict.get k d.
Proof.
  intros N. induction d as [|[k2 v2] d IH]; simpl.
  - destruct (String.eqb_spec k k'); congruence.
  - destruct (String.eqb_spec k' k2); simpl.
    + subst. destruct (String.eqb_spec k k2); congruence.
    + destruct (String.eqb_spec k k2); auto.
Qed.

Lemma mem_set_other (V : Type) k k' (v : V) d :
  k <> k' -> Dict.mem k (Dict.set k' v d) = Dict.mem k d.
Proof. intros N. unfold Dict.mem. now rewrite get_set_other. Qed.

(** ** The methods and the attributes they leave alone *)

Ltac run_method :=
  repeat (unfold bind, lift, get_self, set_subparsers, set_args, write, ret,
          raise in *; simpl in * ).

Lemma on_subparser_frame name method s r s' :
  on_subparser name method s = (r, s') ->
  _parser (self s') = _parser (self s) /\ _args (self s') = _args (self s)
  /\ console s' = console s.
Proof.
  unfold on_subparser. run_method.
  destruct (Dict.get name _); run_method.
  - destruct (method a); intros [= <- <-]; auto.
  - intros [= <- <-]; auto.
Qed.

Lemma add_arguments_frame name args : forall s r s',
  add_arguments name args s = (r, s') ->
  _parser (self s') = _parser (self s) /\ _args (self s') = _args (self s)
  /\ console s' = console s.
Proof.
  induction args as [|a args IH]; intros s r s'; simpl.
  - unfold ret. intros [= <- <-]; auto.
  - unfold bind at 1.
    destruct (on_subparser _ _ s) as [[[]|e] s1] eqn:E1.
    + intros E2. apply on_subparser_frame in E1. apply IH in E2.
      destruct E1 as (A1 & A2 & A3), E2 as (B1 & B2 & B3).
      repeat split; congruence.
    + intros [= <- <-]. now apply on_subparser_frame in E1.
Qed.

Lemma _add_command_frame c s r s' :
  _add_command c s = (r, s') ->
  _parser (self s') = _parser (self s) /\ _args (self s') = _args (self s)
  /\ console s' = console s.
Proof.
  unfold _add_command. unfold bind at 1, get_self at 1.
  unfold bind at 1, lift at 1.
  destruct (add_parser _ _ _ _) as [sp|e]; [|intros [= <- <-]; auto].
  unfold bind at 1, set_subparsers at 1.
  unfold bind at 1.
  match goal with |- context [add_arguments ?n ?a ?st] =>
    destruct (add_arguments n a st) as [[[]|e] s1] eqn:E1 end.
  - intros E2. apply add_arguments_frame in E1. apply on_subparser_frame in E2.
    simpl in E1. destruct E1 as (A1 & A2 & A3), E2 as (B1 & B2 & B3).
    repeat split; congruence.
  - intros [= <- <-]. now apply add_arguments_frame in E1.
Qed.

Lemma add_function_frame f s r s' :
  add_function f s = (r, s') ->
  _parser (self s') = _parser (self s) /\ _args (self s') = _args (self s)
  /\ console s' = console s.
Proof.
  unfold add_function. unfold bind at 1, lift at 1.
  destruct (parse _) as [d|e]; [|intros [= <- <-]; auto].
  unfold bind at 1, lift at 1.
  destruct (arg_settings_of _) as [a|e]; [|intros [= <- <-]; auto].
  apply _add_command_frame.
Qed.

Lemma render_menu_frame argv s r s' :
  render_menu argv s = (r, s') ->
  _parser (self s') = _parser (self s)
  /\ _subparsers (self s') = _subparsers (self s).
Proof.
  unfold render_menu. run_method.
  destruct (top_parse_args _ _ _); run_method.
  - destruct (Dict.get "cmd" a); run_method.
    + destruct (truthy v); run_method; intros [= <- <-]; auto.
    + intros [= <- <-]; auto.
  - intros [= <- <-]; auto.
  - intros [= <- <-]; auto.
Qed.

Lemma execute_frame s r s' : execute s = (r, s') -> s' = s.
Proof.
  unfold execute. run_method.
  destruct (_args (self s)); run_method.
  - destruct (Dict.get "func" n); run_method; now intros [= <- <-].
  - now intros [= <- <-].
Qed.

Lemma reachable_parser s : reachable s -> _parser (self s) = new_top_parser.
Proof.
  induction 1 as [|s s' _ IH St]; [reflexivity|].
  destruct St as [f r s s' E|argv r s s' E|r s s' E].
  - apply add_function_frame in E. destruct E as (E & _). congruence.
  - apply render_menu_frame in E. destruct E as (E & _). congruence.
  - apply execute_frame in E. now subst.
Qed.

Lemma register_all_args fs : forall s,
  _args (self (register_all fs s)) = _args (self s).
Proof.
  induction fs as [|f fs IH]; intros s; simpl; [reflexivity|].
  rewrite IH. destruct (add_function f s) as [r s'] eqn:E.
  apply add_function_frame in E. simpl. tauto.
Qed.

(** ** Bookkeeping fields *)

Lemma arg_dict_In k v ns :
  In (k, v) (arg_dict ns) ->
  In (k, v) ns /\ k <> "cmd" /\ k <> "func" /\ v <> VNone.
Proof.
  unfold arg_dict. rewrite filter_In. simpl. intros [I P].
  apply andb_prop in P. destruct P as [P1 P2].
  apply negb_true_iff, orb_false_elim in P1. destruct P1 as [P1a P1b].
  apply String.eqb_neq in P1a, P1b.
  repeat split; auto. intros ->. discriminate.
Qed.

(** C10. Whatever was parsed, the call [execute] makes carries no keyword
    argument named [cmd] or [func], and none whose value is [None]: a
    parameter a docstring declares under one of these two names never
    reaches the callable. *)
Theorem execute_never_passes_bookkeeping s inv s' :
  execute s = (Return inv, s') ->
  ~ In "cmd" (Dict.keys (kwargs inv)) /\ ~ In "func" (Dict.keys (kwargs inv)).
Proof.
  unfold execute. run_method.
  destruct (_args (self s)) as [ns|]; run_method; [|discriminate].
  destruct (Dict.get "func" ns); run_method; [|discriminate].
  intros [= <- <-]. simpl. unfold Dict.keys.
  split; intros I; apply in_map_iff in I; destruct I as [[k w] [E I]];
    simpl in E; subst k; apply arg_dict_In in I; tauto.
Qed.

(** ** Calling [execute] too early *)

(** C9. With no parsed result stored, [execute] raises ([TypeError], from
    [vars(None)]) and changes nothing; this is the case after [__init__] and
    any number of registrations. *)
Theorem execute_before_parse_raises :
  (forall s, _args (self s) = None -> execute s = (Raise TypeError, s))
  /\ (forall fs out,
        let s := register_all fs {| self := __init__; console := out |} in
        execute s = (Raise TypeError, s)).
Proof.
  assert (H : forall s, _args (self s) = None -> execute s = (Raise TypeError, s)).
  { intros s E. unfold execute. run_method. now rewrite E. }
  split; [exact H|]. intros fs out s. apply H. unfold s.
  now rewrite register_all_args.
Qed.

(** ** What [render_menu] stores *)

(** C5, as the code has it. [render_menu] assigns [self._args] as soon as
    [parse_args] returns, before it looks at [cmd]: the parsed result is
    stored whether or not a sub-command was selected, also when
    [NoArgumentsPassed] is raised; [self._args] keeps its value only when
    [parse_args] itself exits or raises. *)
Theorem render_menu_stores_before_check s argv :
  match top_parse_args (_parser (self s)) (_subparsers (self s)) argv with
  | POk ns => _args (self (snd (render_menu argv s))) = Some ns
  | _ => _args (self (snd (render_menu argv s))) = _args (self s)
  end.
Proof.
  unfold render_menu. run_method.
  destruct (top_parse_args _ _ _) as [ns|e|c o]; run_method; auto.
  destruct (Dict.get "cmd" ns) as [c|]; run_method; auto.
  destruct (truthy c); run_method; auto.
Qed.

(** ** Registration errors *)

Lemma arg_settings_of_unknown params :
  Exists (fun pa => forall t, getattr_builtins (type_name pa) <> Return t) params ->
  exists e, (e = AttributeError \/ e = TypeError) /\ arg_settings_of params = Raise e.
Proof.
  induction 1 as [pa l H|pa l H IH]; simpl.
  - unfold getattr_builtins in *.
    destruct (type_name pa) as [n|]; [|eauto].
    destruct (String.eqb n "bool"); [now elim (H py_bool)|].
    destruct (String.eqb n "list"); [now elim (H py_list)|].
    destruct (String.eqb n "str"); [now elim (H py_str)|].
    destruct (other_getattr n) as [o|]; [now elim (H (py_other o))|eauto].
  - destruct IH as (e & He & ->).
    destruct (getattr_builtins (type_name pa)) as [t|e'] eqn:G; [eauto|].
    exists e'. split; auto. unfold getattr_builtins in G.
    destruct (type_name pa) as [n|]; [|injection G as <-; auto].
    destruct (String.eqb n "bool"); [discriminate|].
    destruct (String.eqb n "list"); [discriminate|].
    destruct (String.eqb n "str"); [discriminate|].
    destruct (other_getattr n); [discriminate|injection G as <-; auto].
Qed.

(** C2. When the docstring of a callable declares a parameter whose type
    name [builtins] does not resolve, [add_function] raises ([AttributeError];
    [TypeError] when a parameter has no type name at all) before
    [_add_command] is called: the process state, and with it the parser, is
    unchanged. *)
Theorem unknown_type_name_rejected f d s :
  parse (__doc__ f) = Return d ->
  Exists (fun pa => forall t, getattr_builtins (type_name pa) <> Return t)
         (params d) ->
  exists e, (e = AttributeError \/ e = TypeError)
            /\ add_function f s = (Raise e, s).
Proof.
  intros P U. destruct (arg_settings_of_unknown U) as (e & He & E).
  exists e. split; auto. unfold add_function. run_method. rewrite P. run_method.
  now rewrite E.
Qed.


(** ** No sub-command *)

Lemma top_parse_args_nil sp :
  top_parse_args new_top_parser sp [] = POk [("cmd", VNone)].
Proof. reflexivity. Qed.


Lemma reachable_register_all fs : forall s,
  reachable s -> reachable (register_all fs s).
Proof.
  induction fs as [|f fs IH]; intros s R; simpl; [exact R|].
  apply IH. eapply reachable_step; [exact R|].
  eapply step_add_function. apply surjective_pairing.
Qed.

(** ** Registration *)

(** The parsers by name of a state. *)
Abbreviation parsers s := (_name_parser_map (_subparsers (self s))).

Lemma on_subparser_spec name method s p :
  Dict.get name (parsers s) = Some p ->
  exists s',
    on_subparser name method s
    = (match method p with Return _ => Return tt | Raise e => Raise e end, s')
    /\ Dict.get name (parsers s')
       = Some (match method p with Return p' => p' | Raise _ => p end)
    /\ (forall k, k <> name -> Dict.get k (parsers s') = Dict.get k (parsers s)).
Proof.
  intros G. unfold on_subparser. run_method. rewrite G. run_method.
  destruct (method p) as [p'|e]; run_method; eexists; split; try reflexivity; simpl.
  - split; [apply get_set_same|]. intros k N. now apply get_set_other.
  - auto.
Qed.

Lemma add_arguments_spec name args : forall s p,
  Dict.get name (parsers s) = Some p ->
  exists s',
    add_arguments name args s
    = (match with_arguments p args with Return _ => Return tt | Raise e => Raise e end,
       s')
    /\ (forall p', with_arguments p args = Return p' ->
                   Dict.get name (parsers s') = Some p')
    /\ (forall k, k <> name -> Dict.get k (parsers s') = Dict.get k (parsers s)).
Proof.
  induction args as [|a args IH]; intros s p G; simpl.
  - exists s. unfold ret. repeat split; auto. now intros p' [= <-].
  - destruct (on_subparser_spec name
                (fun p => add_argument p (arg_display_name a) (arg_help a)
                                       (optional_params_of a)) s G)
      as (s1 & E1 & G1 & O1).
    unfold bind at 1. fold (optional_params_of a). rewrite E1.
    destruct (add_argument p _ _ _) as [p1|e].
    + destruct (IH s1 p1 G1) as (s2 & E2 & G2 & O2).
      exists s2. rewrite E2. repeat split; auto.
      intros k N. rewrite O2, O1; auto.
    + exists s1. repeat split; auto. discriminate.
Qed.

(** What [_add_command] does to the parsers: a name already taken is an
    error, and nothing changes; otherwise the entry of the name is created,
    and it is the finished parser when the call returns. *)
Lemma _add_command_spec c s :
  exists s',
    _add_command c s
    = (if Dict.mem (name c) (parsers s)
       then Raise (ArgumentError (Some "cmd") (conflicting_subparser (name c)))
       else match subparser_of c with Return _ => Return tt | Raise e => Raise e end,
       s')
    /\ (Dict.mem (name c) (parsers s) = true -> s' = s)
    /\ (forall p, Dict.mem (name c) (parsers s) = false ->
                  subparser_of c = Return p ->
                  Dict.get (name c) (parsers s') = Some p)
    /\ (forall k, k <> name c -> Dict.get k (parsers s') = Dict.get k (parsers s)).
Proof.
  unfold _add_command, add_parser. unfold bind at 1, get_self at 1.
  unfold bind at 1, lift at 1.
  destruct (Dict.mem (name c) (parsers s)) eqn:M.
  - exists s. repeat split; auto. discriminate.
  - unfold bind at 1, set_subparsers at 1. unfold bind at 1.
    match goal with |- context [add_arguments ?n ?a ?st] =>
      destruct (@add_arguments_spec n a st (new_parser [name c] (long_help c)))
        as (s1 & E1 & G1 & O1); [simpl; apply get_set_same|] end.
    rewrite E1. unfold subparser_of.
    destruct (with_arguments _ (args c)) as [p1|e].
    + destruct (on_subparser_spec (name c)
                  (fun p => Return (set_defaults p "func" (VFunc (function c))))
                  s1 (G1 p1 eq_refl)) as (s2 & E2 & G2 & O2).
      exists s2. rewrite E2. repeat split; auto; try discriminate.
      * intros p _ [= <-]. exact G2.
      * intros k N. rewrite O2, O1; auto. simpl. now apply get_set_other.
    + exists s1. repeat split; auto; try discriminate.
      intros k N. rewrite O1; auto. simpl. now apply get_set_other.
Qed.

Lemma mem_false_get (V : Type) k (d : Dict.t V) :
  Dict.mem k d = false -> Dict.get k d = None.
Proof. unfold Dict.mem. now destruct (Dict.get k d). Qed.

(** [add_function] never touches the parser of a name already there. *)
Lemma add_function_keeps f s r s' k p :
  add_function f s = (r, s') ->
  Dict.get k (parsers s) = Some p -> Dict.get k (parsers s') = Some p.
Proof.
  unfold add_function. unfold bind at 1, lift at 1.
  destruct (parse _) as [d|e]; [|now intros [= <- <-]].
  unfold bind at 1, lift at 1.
  destruct (arg_settings_of _) as [a|e]; [|now intros [= <- <-]].
  destruct (_add_command_spec (settings_of f d a) s) as (s1 & E & U & _ & O).
  unfold settings_of in *. rewrite E. intros [= <- <-] G.
  destruct (Dict.mem _ (parsers s)) eqn:M.
  - now rewrite (U eq_refl).
  - rewrite O; auto. intros ->. apply mem_false_get in M. simpl in *. congruence.
Qed.

Lemma add_function_returns f s s' :
  add_function f s = (Return tt, s') ->
  exists d args p,
    registration f d args p /\ Dict.get (__name__ f) (parsers s') = Some p.
Proof.
  unfold add_function. unfold bind at 1, lift at 1.
  destruct (parse _) as [d|e] eqn:P; [|discriminate].
  unfold bind at 1, lift at 1.
  destruct (arg_settings_of _) as [a|e] eqn:A; [|discriminate].
  destruct (_add_command_spec (settings_of f d a) s) as (s1 & E & _ & G & _).
  unfold settings_of in *. rewrite E.
  destruct (Dict.mem _ (parsers s)) eqn:M; [discriminate|].
  destruct (subparser_of _) as [p|e] eqn:S; [|discriminate].
  intros [= <-]. exists d, a, p. unfold registration, settings_of.
  split; [repeat split; auto|]. now apply G.
Qed.

Lemma step_keeps s s' k p :
  step s s' -> Dict.get k (parsers s) = Some p -> Dict.get k (parsers s') = Some p.
Proof.
  intros [f r s0 s1 E|argv r s0 s1 E|r s0 s1 E] G.
  - eapply add_function_keeps; eauto.
  - apply render_menu_frame in E. destruct E as (_ & ->). exact G.
  - apply execute_frame in E. now subst.
Qed.

Lemma reachable_step_parser s s' :
  step s s' -> _parser (self s) = new_top_parser ->
  _parser (self s') = new_top_parser.
Proof.
  intros [f r s0 s1 E|argv r s0 s1 E|r s0 s1 E] P.
  - apply add_function_frame in E. destruct E as (E & _). congruence.
  - apply render_menu_frame in E. destruct E as (E & _). congruence.
  - apply execute_frame in E. now subst.
Qed.

(** A registered command keeps the parser its registration built. *)
Lemma registered_lookup f s :
  registered f s ->
  _parser (self s) = new_top_parser
  /\ exists d args p,
       registration f d args p /\ Dict.get (__name__ f) (parsers s) = Some p.
Proof.
  induction 1 as [s s' R E|s s' _ IH St].
  - split.
    + apply reachable_parser. eapply reachable_step; [exact R|].
      eapply step_add_function; exact E.
    + eapply add_function_returns; exact E.
  - destruct IH as (P & d & a & p & Rg & G). split.
    + eapply reachable_step_parser; eauto.
    + exists d, a, p. split; auto. eapply step_keeps; eauto.
Qed.

(** ** The top-level parser *)

Lemma get_option_tuples_top s :
  length (_get_option_tuples new_top_parser s) <= 1.
Proof.
  unfold _get_option_tuples.
  destruct s as [|c0 [|c1 rest]]; [simpl; auto|simpl; auto|].
  cbn [new_top_parser _option_string_actions flat_map fst snd].
  destruct (is_prefix_char c0) eqn:C0; [|simpl; auto].
  apply Ascii.eqb_eq in C0. subst c0.
  destruct (is_prefix_char c1) eqn:C1.
  - apply Ascii.eqb_eq in C1. subst c1.
    cbn [andb]. simpl (Str.split1 _ _).
    destruct (Str.split1 "=" rest) as [[l r]|];
      unfold Str.startswith; simpl;
      match goal with |- context [if ?b then _ else _] => destruct b end;
      simpl; auto.
  - cbn [andb]. unfold Str.startswith.
    assert (P : String.prefix (String "-" (String c1 rest)) "--help" = false).
    { simpl. destruct (ascii_dec c1 "-") as [->|N]; [discriminate|reflexivity]. }
    rewrite P.
    assert (Q : String.eqb "--help" (String "-" (String c1 "")) = false).
    { apply String.eqb_neq. congruence. }
    rewrite Q.
    repeat match goal with |- context [if ?b then _ else _] => destruct b end;
      simpl; auto.
Qed.

Lemma parse_optional_top s :
  exists o, _parse_optional new_top_parser s = POk o.
Proof.
  unfold _parse_optional. destruct s as [|c tail]; [eauto|].
  destruct (negb _); [eauto|].
  destruct (Dict.get _ _); [eauto|].
  destruct (String.eqb tail ""); [eauto|].
  match goal with |- context [match ?x with Some t => POk (Some t) | None => _ end] =>
    destruct x; [eauto|] end.
  pose proof (get_option_tuples_top (String c tail)) as L.
  destruct (_get_option_tuples _ _) as [|t1 [|t2 l]]; simpl in L; [| eauto | lia].
  repeat match goal with |- context [if ?b then _ else _] => destruct b end; eauto.
Qed.

Lemma classify_top args :
  exists toks, classify new_top_parser args = POk toks /\ map fst toks = args.
Proof.
  induction args as [|s args IH]; simpl; [eauto|].
  destruct (String.eqb s "--").
  - eexists. split; [reflexivity|]. simpl. f_equal.
    rewrite map_map. simpl. apply map_id.
  - destruct (parse_optional_top s) as [o ->]. destruct IH as (toks & -> & M).
    simpl. eexists. split; [reflexivity|]. simpl. now rewrite M.
Qed.

(** ** The sub-parsers action takes everything *)

Lemma match_atoms_many a s :
  quant a = Many -> match_atoms [a] s = Some [run a s].
Proof. intros Q. simpl. rewrite Q. now destruct (run a s). Qed.

Lemma run_any s :
  run {| class := [pDash; pA; pO]; quant := Many |} s = length s.
Proof. induction s as [|[] s IH]; simpl in *; auto. Qed.

Lemma re_match_PARSER pattern :
  re_match [positional_pattern PARSER] (pA :: pattern)
  = Some [S (length pattern)].
Proof.
  unfold re_match. cbn [concat positional_pattern app].
  change (match_atoms _ (pA :: pattern))
    with (option_map (cons 0)
            (option_map (cons 1)
               (match_atoms [{| class := [pDash; pA; pO]; quant := Many |}] pattern))).
  rewrite match_atoms_many by reflexivity. rewrite run_any. simpl.
  now rewrite Nat.add_0_r.
Qed.

Lemma get_keys (V : Type) k (v : V) d :
  Dict.get k d = Some v -> existsb (String.eqb k) (Dict.keys d) = true.
Proof.
  induction d as [|[k' v'] d IH]; simpl; [discriminate|].
  destruct (String.eqb k k'); simpl; auto.
Qed.

Lemma set_get_same (V : Type) k (v : V) d :
  Dict.get k d = Some v -> Dict.set k v d = d.
Proof.
  induction d as [|[k' v'] d IH]; simpl; [discriminate|].
  destruct (String.eqb_spec k k') as [<-|N].
  - now intros [= ->].
  - intros G. now rewrite IH.
Qed.

Lemma mapM_get_value_untyped a l :
  type a = None -> mapM (_get_value a) l = POk (map VStr l).
Proof.
  intros Ty. induction l as [|s l IH]; simpl; [reflexivity|].
  unfold _get_value at 1. rewrite Ty. simpl. now rewrite IH.
Qed.

Lemma strings_of_map_VStr l : strings_of (map VStr l) = Some l.
Proof. induction l as [|s l IH]; simpl; [reflexivity|]. now rewrite IH. Qed.

Lemma consume_loop_no_option p choices invoke fuel st toks :
  next_option_string_index toks = None ->
  consume_loop p choices invoke fuel st toks = Some (POk (st, toks)).
Proof. intros N. destruct fuel; simpl; now rewrite N. Qed.

Lemma parse_known_args_error p choices invoke args e :
  parse_known_args p choices invoke args = PError e ->
  match e with ArgumentError _ _ => False | _ => True end.
Proof.
  unfold parse_known_args.
  destruct (_parse_known_args _ _ _ _ _) as [[ns a]|e'|];
    [| destruct e'; try discriminate; now intros [= <-] | discriminate].
  destruct (Dict.get _ ns) as [[| | | |l| |]|]; try discriminate;
    try (now intros [= <-]).
  destruct (strings_of l); [discriminate|now intros [= <-]].
Qed.

Section TopLevel.
Variable sp : SubParsersAction.
Variable name : string.
Variable p : ArgumentParser.
Hypothesis registered_name : Dict.get name (_name_parser_map sp) = Some p.

Let choices := top_choices sp.
Let invoke :=
  call_action new_top_parser
    (fun n => option_map sub_parse_known_args (Dict.get n (_name_parser_map sp))).

Lemma top_take_action st rest :
  take_action choices invoke st (1, subparsers_action) (name :: rest)
  = let* r := sub_parse_known_args p rest in
    POk (with_namespace (with_seen st 1)
           (merge_subnamespace (setattr (namespace st) "cmd" (VStr name)) r)).
Proof.
  unfold take_action, _get_values. cbn [snd fst subparsers_action nargs].
  rewrite mapM_get_value_untyped by reflexivity.
  cbn [map pbind]. unfold _check_value, choices, top_choices.
  cbn [kind subparsers_action]. rewrite get_keys with (v := p) by exact registered_name.
  destruct rest as [|r0 rest'];
    cbn [pbind]; unfold invoke, call_action;
    cbn [kind subparsers_action dest]; rewrite registered_name;
    rewrite strings_of_map_VStr; cbn [option_map];
    match goal with |- context [sub_parse_known_args p ?r] =>
      destruct (sub_parse_known_args p r) end; reflexivity.
Qed.


Lemma top_consume_positionals st toks :
  positionals st = [(1, subparsers_action)] ->
  consume_positionals choices invoke st ((name, tA) :: toks)
  = let* st1 := take_action choices invoke st (1, subparsers_action)
                            (name :: map fst toks) in
    POk (with_positionals st1 [], []).
Proof.
  intros P. unfold consume_positionals. rewrite P.
  unfold _match_arguments_partial. cbn [map snd length match_partial_from firstn].
  change (_get_nargs_pattern subparsers_action) with (positional_pattern PARSER).
  unfold arg_strings_pattern. cbn [map snd pattern_char].
  rewrite re_match_PARSER. rewrite length_map.
  cbn [take_positionals firstn skipn]. rewrite firstn_all, skipn_all.
  cbn [map fst]. destruct (take_action _ _ _ _ _); reflexivity.
Qed.

Lemma top_take_action_positionals st args :
  match take_action choices invoke st (1, subparsers_action) args with
  | POk st1 => positionals st1 = positionals st /\ extras st1 = extras st
               /\ seen_actions st1 = 1 :: seen_actions st
  | _ => True
  end.
Proof.
  unfold take_action.
  destruct (_get_values _ _ _) as [[v|]| |]; cbn [pbind]; simpl; auto.
  destruct (invoke _ _ _); cbn [pbind]; simpl; auto.
Qed.

(** The strings from the first option on are all taken by the sub-parsers
    action: both turns of the loop end in the same state. *)
Lemma top_consume st toks :
  positionals st = [(1, subparsers_action)] ->
  match consume_loop new_top_parser choices invoke
          (length ((name, tA) :: toks)) st ((name, tA) :: toks) with
  | None => PError (OtherError "RecursionError")
  | Some r =>
      let* r1 := r in
      consume_positionals choices invoke (fst r1) (snd r1)
  end
  = let* st1 := take_action choices invoke st (1, subparsers_action)
                            (name :: map fst toks) in
    POk (with_positionals st1 [], []).
Proof.
  intros P. cbn [length consume_loop next_option_string_index].
  destruct (next_option_string_index toks) as [k|]; cbn [option_map].
  - rewrite top_consume_positionals by exact P.
    pose proof (top_take_action_positionals st (name :: map fst toks)) as F.
    destruct (take_action _ _ _ _ _) as [st1| |]; cbn [pbind]; try reflexivity.
    cbn [length Nat.ltb Nat.leb]. rewrite consume_loop_no_option by reflexivity.
    cbn [pbind fst snd]. unfold consume_positionals. cbn [positionals with_positionals map].
    reflexivity.
  - cbn [pbind fst snd]. now apply top_consume_positionals.
Qed.


Lemma top_check_actions ns :
  check_actions (indexed (_actions new_top_parser)) [1] ns [] = POk (ns, []).
Proof.
  reflexivity.
Qed.

Lemma top_parse_args_selected rest :
  word name = true ->
  top_parse_args new_top_parser sp (name :: rest)
  = match sub_parse_known_args p rest with
    | POk r =>
        reject_unrecognized new_top_parser
          (merge_subnamespace [("cmd", VStr name)] r)
    | PError e => PError e
    | PExit c o => PExit c o
    end.
Proof.
  intros W. unfold top_parse_args, parse_args, parse_known_args.
  fold choices. fold invoke.
  match goal with |- context [_parse_known_args _ _ _ _ ?n] =>
    change n with [("cmd", VNone)] end.
  unfold _parse_known_args.
  assert (C : exists toks,
             classify new_top_parser (name :: rest) = POk ((name, tA) :: toks)
             /\ map fst toks = rest).
  { destruct (classify_top rest) as (toks & E & M). exists toks. split; auto.
    cbn [classify]. destruct name as [|c n]; [discriminate|].
    simpl in W. apply negb_true_iff in W.
    replace (String.eqb (String c n) "--") with false.
    - unfold _parse_optional. rewrite W. cbn [negb pbind]. now rewrite E.
    - symmetry. apply String.eqb_neq. intros [= -> _]. discriminate. }
  destruct C as (toks & -> & M). cbn [pbind].
  match goal with |- context [consume_loop _ _ _ _ ?st _] => set (st0 := st) end.
  pose proof (@top_consume st0 toks eq_refl) as L.
  rewrite top_take_action in L. rewrite M in L.
  destruct (consume_loop _ _ _ _ _ _) as [r|].
  - destruct r as [r1| |]; cbn [pbind] in *.
    + destruct (consume_positionals _ _ _ _) as [r2| |]; cbn [pbind] in *.
      * destruct (sub_parse_known_args p rest) as [r| |]; cbn [pbind] in L;
          try discriminate.
        injection L as ->. cbn [fst snd with_positionals namespace seen_actions
                                with_extras with_namespace with_seen extras st0 map app].
        rewrite top_check_actions. cbn [pbind fst snd].
        unfold reject_unrecognized.
        destruct (Dict.get _UNRECOGNIZED_ARGS_ATTR _) as [[| | | |l| |]|];
          try reflexivity.
        destruct (strings_of l) as [[]|]; reflexivity.
      * destruct (sub_parse_known_args p rest) as [r|e'|] eqn:S; cbn [pbind] in L;
          try discriminate. injection L as ->.
        apply parse_known_args_error in S. now destruct e'.
      * destruct (sub_parse_known_args p rest) as [r| |]; cbn [pbind] in L;
          try discriminate. now injection L as -> ->.
    + destruct (sub_parse_known_args p rest) as [r|e'|] eqn:S; cbn [pbind] in L;
        try discriminate. injection L as ->.
      apply parse_known_args_error in S. now destruct e'.
    + destruct (sub_parse_known_args p rest) as [r| |]; cbn [pbind] in L;
        try discriminate. now injection L as -> ->.
  - destruct (sub_parse_known_args p rest) as [r| |]; cbn [pbind] in L;
      try discriminate. now injection L as <-.
Qed.

End TopLevel.

(** ** Parsing and executing a registered command *)

Lemma render_menu_selected s name p rest ns :
  _parser (self s) = new_top_parser ->
  Dict.get name (_name_parser_map (_subparsers (self s))) = Some p ->
  word name = true ->
  sub_parse_known_args p rest = POk (ns, []) ->
  let all := merge_subnamespace [("cmd", VStr name)] (ns, []) in
  Dict.get _UNRECOGNIZED_ARGS_ATTR all = None ->
  (exists cmd, Dict.get "cmd" all = Some cmd /\ truthy cmd = true) ->
  render_menu (name :: rest) s = (Return tt, parsed s all).
Proof.
  intros P G W S all U (cmd & C & Tr).
  unfold render_menu, bind at 1, get_self. rewrite P.
  rewrite top_parse_args_selected with (p := p) by assumption. rewrite S.
  fold all. unfold reject_unrecognized. rewrite U.
  unfold bind, set_args. rewrite C, Tr. unfold ret, parsed. cbn. now rewrite P.
Qed.

Lemma execute_parsed s ns func :
  Dict.get "func" ns = Some func ->
  execute (parsed s ns)
  = (Return {| callee := func; kwargs := arg_dict ns |}, parsed s ns).
Proof. intros F. unfold execute. run_method. now rewrite F. Qed.

Lemma word_truthy name : word name = true -> truthy (VStr name) = true.
Proof. now destruct name. Qed.

(** C8. A registered command whose docstring declares no parameter: the
    argument vector made of its name is parsed, and [execute] then calls the
    function with no argument. *)
Theorem command_without_parameters f s d :
  registered f s ->
  parse (__doc__ f) = Return d -> params d = [] ->
  word (__name__ f) = true ->
  let s' := parsed s [("cmd", VStr (__name__ f)); ("func", VFunc f)] in
  render_menu [__name__ f] s = (Return tt, s')
  /\ execute s' = (Return {| callee := VFunc f; kwargs := [] |}, s').
Proof.
  intros R D Ps W s'.
  destruct (registered_lookup R) as (P & d' & a & p & (D' & A & Sp) & G).
  rewrite D in D'. injection D' as <-. rewrite Ps in A. injection A as <-.
  injection Sp as <-.
  split.
  - apply render_menu_selected with (p := set_defaults
        (new_parser [__name__ f] (or_else (long_description d) (short_description d)))
        "func" (VFunc f)) (ns := [("func", VFunc f)]); auto.
    exists (VStr (__name__ f)). split; [reflexivity|now apply word_truthy].
  - apply execute_parsed. reflexivity.
Qed.

Lemma registered_register_all f fs : forall s,
  registered f s -> registered f (register_all fs s).
Proof.
  induction fs as [|g fs IH]; intros s R; simpl; [exact R|].
  apply IH. eapply registered_step; [exact R|].
  eapply step_add_function. apply surjective_pairing.
Qed.

(** A function whose registration returned, among others. *)
Lemma registered_among before f after s :
  reachable s ->
  fst (add_function f (register_all before s)) = Return tt ->
  registered f (register_all (before ++ f :: after) s).
Proof.
  intros R E.
  assert (Sp : forall l1 l2 s0,
             register_all (l1 ++ l2) s0 = register_all l2 (register_all l1 s0)).
  { induction l1 as [|g l1 IH]; intros l2 s0; simpl; auto. }
  rewrite Sp. cbn [register_all].
  destruct (add_function f (register_all before s)) as [r s1] eqn:A.
  cbn [fst snd] in *. subst r. apply registered_register_all.
  eapply registered_now; [apply reachable_register_all; exact R|exact A].
Qed.

(** ** Names that are identifiers *)

Lemma contains_identifier c n :
  is_identifier_char c = false -> all_identifier_chars n = true ->
  Str.contains c n = false.
Proof.
  intros C. induction n as [|d n IH]; simpl; [reflexivity|].
  intros A. apply andb_prop in A. destruct A as [A1 A2].
  rewrite IH by exact A2. destruct (Ascii.eqb_spec c d) as [<-|]; [congruence|reflexivity].
Qed.

Lemma replace_absent a b n : Str.contains a n = false -> Str.replace a b n = n.
Proof.
  induction n as [|d n IH]; simpl; [reflexivity|].
  intros C. apply orb_false_elim in C. destruct C as [C1 C2].
  now rewrite C1, IH.
Qed.

Lemma identifier_word n : identifier n = true -> word n = true.
Proof.
  destruct n as [|c n]; simpl; [discriminate|].
  intros I. apply andb_prop in I. destruct I as [_ I].
  apply andb_prop in I. destruct I as [I _].
  unfold is_prefix_char. destruct (Ascii.eqb_spec c "-") as [->|]; [discriminate|reflexivity].
Qed.

Lemma identifier_all n : identifier n = true -> all_identifier_chars n = true.
Proof.
  destruct n as [|c n]; [discriminate|]. unfold identifier.
  intros I. apply andb_prop in I. tauto.
Qed.

Lemma identifier_dest n :
  identifier n = true ->
  Str.replace "-" "_" (Str.lstrip "-" ("--" ++ n)) = n /\ Str.lstrip "-" n = n.
Proof.
  intros I. pose proof (identifier_word _ I) as W.
  assert (L : Str.lstrip "-" n = n).
  { destruct n as [|c n]; [reflexivity|]. cbn [Str.lstrip word] in *.
    unfold is_prefix_char in W.
    destruct (Ascii.eqb_spec "-" c) as [<-|]; [discriminate W|reflexivity]. }
  split; [|exact L].
  change (Str.lstrip "-" ("--" ++ n)) with (Str.lstrip "-" n). rewrite L.
  apply replace_absent, contains_identifier; [reflexivity|now apply identifier_all].
Qed.

Lemma identifier_neq n lit :
  identifier n = true -> identifier lit = false -> String.eqb n lit = false.
Proof. intros I L. apply String.eqb_neq. intros ->. congruence. Qed.

Lemma not_reserved n :
  ~ In n reserved ->
  String.eqb n "cmd" = false /\ String.eqb n "func" = false
  /\ String.eqb n _UNRECOGNIZED_ARGS_ATTR = false.
Proof.
  intros N. repeat split; apply String.eqb_neq; intros ->; apply N; simpl; auto.
Qed.

(** ** The parser of a command with one parameter *)

(** Evaluation with names that are variables: comparisons of strings are
    left alone by [cbn], and settled by computation when the literals
    decide them, by the hypotheses otherwise. *)
#[local] Arguments String.eqb : simpl never.
#[local] Arguments Ascii.eqb : simpl never.
#[local] Arguments Str.lstrip : simpl never.
#[local] Arguments Str.replace : simpl never.
#[local] Arguments Str.split1 : simpl never.
#[local] Arguments Str.contains : simpl never.
#[local] Arguments Str.chomp : simpl never.
#[local] Arguments String.prefix : simpl never.
#[local] Arguments looks_like_negative_number : simpl never.

Ltac decide_eqb :=
  repeat match goal with
  | |- context [String.eqb ?a ?a] => rewrite (String.eqb_refl a)
  | H : String.eqb ?a ?b = _ |- context [String.eqb ?a ?b] => rewrite H
  | |- context [String.eqb ?a ?b] =>
      let r := eval cbv in (String.eqb a b) in
      match r with
      | true => change (String.eqb a b) with true
      | false => change (String.eqb a b) with false
      end
  | |- context [Ascii.eqb ?a ?b] =>
      let r := eval cbv in (Ascii.eqb a b) in
      match r with
      | true => change (Ascii.eqb a b) with true
      | false => change (Ascii.eqb a b) with false
      end
  | H : is_prefix_char ?c = _ |- context [is_prefix_char ?c] => rewrite H
  | |- context [is_prefix_char ?c] =>
      let r := eval cbv in (is_prefix_char c) in
      match r with
      | true => change (is_prefix_char c) with true
      | false => change (is_prefix_char c) with false
      end
  end.

Ltac evaluate :=
  repeat (progress (unfold Dict.mem, setattr, SUPPRESS, _UNRECOGNIZED_ARGS_ATTR;
                    cbn; decide_eqb)).

Lemma negative_number_option n :
  looks_like_negative_number (option_of n) = false.
Proof.
  unfold looks_like_negative_number, option_of. simpl. now destruct (Str.chomp n).
Qed.

Lemma single_argument_parser f d pa ty :
  params d = [pa] ->
  getattr_builtins (type_name pa) = Return ty ->
  identifier (arg_name pa) = true ->
  ~ In (arg_name pa) reserved ->
  (documented_optional pa = true -> arg_name pa <> "help") ->
  (eq_bool ty = false -> eq_list ty = false -> callable ty = true) ->
  exists args,
    arg_settings_of (params d) = Return args
    /\ subparser_of (settings_of f d args)
       = Return (parser_with (__name__ f)
                   (or_else (long_description d) (short_description d))
                   (action_for pa ty) f).
Proof.
  intros Ps Ty I NR NH Ca. rewrite Ps. cbn [arg_settings_of]. rewrite Ty.
  eexists. split; [reflexivity|].
  edestruct not_reserved as (_ & NF & _); [exact NR|].
  edestruct identifier_dest as (D1 & D2); [exact I|].
  assert (W : word (arg_name pa) = true) by now apply identifier_word.
  unfold subparser_of, settings_of.
  cbn [name long_help args function with_arguments arg_display_name arg_help arg_type].
  unfold optional_params_of, action_for, option_of. cbn [arg_type].
  fold (documented_optional pa).
  destruct (arg_name pa) as [|c n] eqn:N; [discriminate|].
  cbn [word] in W. apply negb_true_iff in W.
  destruct (documented_optional pa) eqn:O.
  - (* an option *)
    assert (H1 : String.eqb ("--" ++ String c n) "--help" = false).
    { apply String.eqb_neq. intros E. apply NH; [reflexivity|].
      cbn [append] in E. congruence. }
    change (Str.lstrip "-" ("--" ++ String c n)) with (Str.lstrip "-" (String c n)) in D1.
    cbn [append] in H1.
    unfold add_argument. cbn [append].
    change (Str.lstrip "-" (String "-" (String "-" (String c n))))
      with (Str.lstrip "-" (String c n)).
    rewrite D1, D2.
    pose proof (negative_number_option (String c n)) as NN.
    unfold option_of in *. cbn [append] in NN.
    destruct (eq_bool ty) eqn:EB; [|destruct (eq_list ty) eqn:EL];
      try rewrite (Ca eq_refl eq_refl);
      unfold _add_action, set_defaults, parser_with; evaluate;
      rewrite ?NN; evaluate; reflexivity.
  - unfold add_argument.
    destruct (eq_bool ty) eqn:EB; [|destruct (eq_list ty) eqn:EL];
      try rewrite (Ca eq_refl eq_refl);
      unfold _add_action, set_defaults, parser_with; evaluate; reflexivity.
Qed.

(** The comparisons a name that is an identifier settles. *)
Lemma name_facts n :
  identifier n = true -> ~ In n reserved ->
  String.eqb n "func" = false /\ String.eqb "func" n = false
  /\ String.eqb n "cmd" = false /\ String.eqb "cmd" n = false
  /\ String.eqb n "_unrecognized_args" = false
  /\ String.eqb "_unrecognized_args" n = false
  /\ String.eqb n "" = false
  /\ String.eqb (option_of n) "--" = false.
Proof.
  intros I NR. edestruct not_reserved as (A1 & A2 & A3); [exact NR|].
  unfold _UNRECOGNIZED_ARGS_ATTR in A3.
  assert (A5 : String.eqb n "" = false) by (apply identifier_neq; auto).
  repeat split; auto; try (rewrite String.eqb_sym; assumption).
Qed.

Ltac with_name_facts I NR :=
  let F := fresh "F" in
  pose proof (name_facts I NR) as F;
  destruct F as (?F & ?F & ?F & ?F & ?F & ?F & ?F & ?F).

Section OneFlag.
Variables (name n : string) (ds h : option string) (f : Py.function).
Hypothesis n_identifier : identifier n = true.
Hypothesis n_free : ~ In n reserved.
Hypothesis n_not_help : n <> "help".

Let a := store_true_action [option_of n] n (VBool false) false h.
Let p := parser_with name ds a f.

Lemma flag_absent :
  sub_parse_known_args p [] = POk ([(n, VBool false); ("func", VFunc f)], []).
Proof.
  with_name_facts n_identifier n_free.
  unfold sub_parse_known_args, parse_known_args, _parse_known_args, p, parser_with, a,
    option_of.
  evaluate. reflexivity.
Qed.

Lemma flag_present :
  sub_parse_known_args p [option_of n]
  = POk ([(n, VBool true); ("func", VFunc f)], []).
Proof.
  with_name_facts n_identifier n_free.
  assert (H1 : String.eqb (option_of n) "--help" = false).
  { apply String.eqb_neq. intros E. apply n_not_help.
    unfold option_of in E. cbn [append] in E. congruence. }
  unfold option_of in *. cbn [append] in *.
  unfold sub_parse_known_args, parse_known_args, _parse_known_args, p, parser_with, a,
    option_of.
  evaluate. reflexivity.
Qed.

End OneFlag.

(** ** Argument strings that are plain *)

Lemma classify_plain p tokens :
  forallb plain tokens = true ->
  classify p tokens = POk (as_arguments tokens).
Proof.
  induction tokens as [|s tokens IH]; [reflexivity|].
  cbn [forallb]. intros A. apply andb_prop in A. destruct A as [A1 A2].
  cbn [classify]. rewrite (IH A2).
  destruct s as [|c s]; [reflexivity|].
  cbn [plain] in A1. apply negb_true_iff in A1.
  replace (String.eqb (String c s) "--") with false.
  - unfold _parse_optional. rewrite A1. reflexivity.
  - symmetry. apply String.eqb_neq. intros [= -> _]. discriminate.
Qed.

Lemma as_arguments_no_option tokens :
  next_option_string_index (as_arguments tokens) = None.
Proof. induction tokens as [|s tokens IH]; simpl; [reflexivity|now rewrite IH]. Qed.

Lemma as_arguments_pattern tokens :
  arg_strings_pattern (as_arguments tokens) = repeat pA (length tokens).
Proof. induction tokens as [|s tokens IH]; simpl; [reflexivity|]. f_equal. exact IH. Qed.

Lemma as_arguments_strings tokens : map fst (as_arguments tokens) = tokens.
Proof. unfold as_arguments. rewrite map_map. apply map_id. Qed.

Lemma remove_first_plain tokens :
  forallb plain tokens = true -> remove_first "--" tokens = tokens.
Proof.
  induction tokens as [|s tokens IH]; [reflexivity|].
  cbn [forallb remove_first]. intros A. apply andb_prop in A. destruct A as [A1 A2].
  rewrite (IH A2). replace (String.eqb "--" s) with false; [reflexivity|].
  symmetry. apply String.eqb_neq. intros <-. discriminate.
Qed.

Lemma run_repeat a k :
  in_class a pA = true -> run a (repeat pA k) = k.
Proof. intros C. induction k as [|k IH]; simpl; [reflexivity|]. now rewrite C, IH. Qed.

Lemma skipn_repeat (X : Type) (x : X) k : skipn k (repeat x k) = [].
Proof. induction k; simpl; auto. Qed.

(** One or more arguments: all of them are taken. *)
Lemma re_match_ONE_OR_MORE k positional :
  re_match [if positional : bool then positional_pattern ONE_OR_MORE
            else strip_dashes (positional_pattern ONE_OR_MORE)]
           (repeat pA (S k))
  = Some [S k].
Proof.
  unfold re_match. destruct positional; cbn [concat positional_pattern app strip_dashes
    filter map is_dashes dashes class quant negb without_dash pchar_eqb].
  - change (match_atoms _ (repeat pA (S k)))
      with (option_map (cons 0)
              (option_map (cons 1)
                 (match_atoms [{| class := [pA; pDash]; quant := Many |}]
                              (repeat pA k)))).
    rewrite match_atoms_many by reflexivity. rewrite run_repeat by reflexivity.
    simpl. now rewrite Nat.add_0_r.
  - change (match_atoms _ (repeat pA (S k)))
      with (option_map (cons 1)
              (match_atoms [{| class := [pA]; quant := Many |}] (repeat pA k))).
    rewrite match_atoms_many by reflexivity. rewrite run_repeat by reflexivity.
    simpl. now rewrite Nat.add_0_r.
Qed.

Lemma mapM_get_value_str a tokens :
  type a = Some py_str -> mapM (_get_value a) tokens = POk (map VStr tokens).
Proof.
  intros Ty. induction tokens as [|s l IH]; simpl; [reflexivity|].
  unfold _get_value at 1. rewrite Ty. simpl. now rewrite IH.
Qed.

Lemma mapM_check_value_free a vs :
  mapM (_check_value (fun _ => None) a) vs = POk (map (fun _ => tt) vs).
Proof. induction vs as [|v vs IH]; simpl; [reflexivity|]. now rewrite IH. Qed.

#[local] Arguments take_action : simpl never.
#[local] Arguments re_match : simpl never.
#[local] Arguments _get_nargs_pattern : simpl never.

Lemma re_match_list a k :
  nargs a = ONE_OR_MORE ->
  re_match [_get_nargs_pattern a] (repeat pA (S k)) = Some [S k].
Proof.
  intros N. unfold _get_nargs_pattern. rewrite N.
  destruct (option_strings a).
  - apply (re_match_ONE_OR_MORE k true).
  - apply (re_match_ONE_OR_MORE k false).
Qed.

(** What a [store] action with [nargs='+'] and [type=str] does with plain
    argument strings. *)
Lemma take_action_list p st i a tokens :
  kind a = Store -> nargs a = ONE_OR_MORE -> type a = Some py_str ->
  forallb plain tokens = true ->
  take_action (fun _ => None) (call_action p (fun _ => None)) st (i, a) tokens
  = POk (with_namespace (with_seen st i)
           (setattr (namespace st) (dest_name a) (VList (map VStr tokens)))).
Proof.
  intros K N Ty Pl. unfold take_action, _get_values. cbn [fst snd].
  rewrite N, remove_first_plain by exact Pl.
  rewrite mapM_get_value_str by exact Ty.
  destruct tokens as [|x [|y l]]; cbn [pbind]; rewrite mapM_check_value_free;
    cbn [pbind]; unfold call_action; rewrite K; reflexivity.
Qed.

Lemma length_as_arguments tokens : length (as_arguments tokens) = length tokens.
Proof. apply length_map. Qed.

Section OneList.
Variables (name n : string) (ds h : option string) (f : Py.function).
Hypothesis n_identifier : identifier n = true.
Hypothesis n_free : ~ In n reserved.

Variable tokens : list string.
Hypothesis tokens_plain : forallb plain tokens = true.
Hypothesis tokens_some : tokens <> [].

Lemma list_positional :
  sub_parse_known_args
    (parser_with name ds (store_action [] n ONE_OR_MORE py_str VNone true h) f)
    tokens
  = POk ([(n, VList (map VStr tokens)); ("func", VFunc f)], []).
Proof.
  with_name_facts n_identifier n_free.
  unfold sub_parse_known_args, parse_known_args, _parse_known_args, parser_with.
  rewrite classify_plain by exact tokens_plain.
  evaluate.
  rewrite consume_loop_no_option by apply as_arguments_no_option.
  evaluate. unfold consume_positionals. evaluate.
  unfold _match_arguments_partial. evaluate.
  rewrite as_arguments_pattern.
  destruct tokens as [|t0 ts] eqn:Tk; [contradiction|]. rewrite <- Tk in *.
  replace (length tokens) with (S (length ts)) by now rewrite Tk.
  rewrite re_match_list by reflexivity.
  replace (S (length ts)) with (length (as_arguments tokens))
    by now rewrite length_as_arguments, Tk.
  evaluate. rewrite firstn_all, skipn_all, as_arguments_strings.
  rewrite take_action_list by (try reflexivity; exact tokens_plain).
  evaluate. reflexivity.
Qed.

End OneList.

Lemma re_match_none a :
  nargs a = OPTIONAL -> re_match [_get_nargs_pattern a] [] = Some [0].
Proof.
  intros N. unfold _get_nargs_pattern. rewrite N.
  now destruct (option_strings a).
Qed.

Lemma re_match_at_most_one a :
  nargs a = OPTIONAL -> re_match [_get_nargs_pattern a] [pA] = Some [1].
Proof.
  intros N. unfold _get_nargs_pattern. rewrite N.
  now destruct (option_strings a).
Qed.

(** What a [store] action with [nargs='?'] does with one plain argument
    string, and with none. *)
Lemma take_action_scalar p st i a ty t :
  kind a = Store -> nargs a = OPTIONAL -> type a = Some ty -> callable ty = true ->
  plain t = true ->
  take_action (fun _ => None) (call_action p (fun _ => None)) st (i, a) [t]
  = match call ty t with
    | Converted v =>
        POk (with_namespace (with_seen st i) (setattr (namespace st) (dest_name a) v))
    | Rejected => PError (ArgumentError (_get_action_name a) (invalid_value t))
    | Thrown e => PError e
    end.
Proof.
  intros K N Ty Ca Pl. unfold take_action, _get_values. cbn [fst snd].
  rewrite N. rewrite (remove_first_plain [t]) by (cbn; now rewrite Pl).
  unfold _get_value. rewrite Ty, Ca. cbn [negb].
  destruct (call ty t) as [v| |e]; cbn [pbind]; try reflexivity.
  unfold call_action. now rewrite K.
Qed.

Lemma take_action_scalar_none p st i a :
  kind a = Store -> nargs a = OPTIONAL -> const a = VNone -> default a = Some VNone ->
  take_action (fun _ => None) (call_action p (fun _ => None)) st (i, a) []
  = POk (with_namespace (with_seen st i) (setattr (namespace st) (dest_name a) VNone)).
Proof.
  intros K N C D. unfold take_action, _get_values. cbn [fst snd remove_first].
  rewrite N, C, D.
  destruct (option_strings a); cbn [pbind]; unfold call_action; now rewrite K.
Qed.

Lemma consume_loop_option p choices invoke fuel st toks :
  next_option_string_index toks = Some 0 ->
  consume_loop p choices invoke (S fuel) st toks
  = match consume_optional p choices invoke st toks with
    | POk (st', toks') => consume_loop p choices invoke fuel st' toks'
    | PError e => Some (PError e)
    | PExit c o => Some (PExit c o)
    end.
Proof. intros N. cbn [consume_loop]. rewrite N. reflexivity. Qed.

#[local] Arguments consume_loop : simpl never.

Section OneListOption.
Variables (name n : string) (ds h : option string) (f : Py.function).
Hypothesis n_identifier : identifier n = true.
Hypothesis n_free : ~ In n reserved.
Hypothesis n_not_help : n <> "help".

Let p :=
  parser_with name ds
    (store_action [option_of n] n ONE_OR_MORE py_str VNone false h) f.

Lemma option_facts :
  String.eqb (option_of n) "--help" = false.
Proof.
  apply String.eqb_neq. intros E. apply n_not_help.
  unfold option_of in E. cbn [append] in E. congruence.
Qed.

Lemma list_option_absent :
  sub_parse_known_args p [] = POk ([(n, VNone); ("func", VFunc f)], []).
Proof.
  with_name_facts n_identifier n_free. pose proof option_facts as H1.
  unfold option_of in *. cbn [append] in *.
  unfold sub_parse_known_args, parse_known_args, _parse_known_args, p, parser_with,
    option_of.
  evaluate. unfold consume_loop. evaluate. unfold consume_positionals. evaluate.
  reflexivity.
Qed.

Variable tokens : list string.
Hypothesis tokens_plain : forallb plain tokens = true.
Hypothesis tokens_some : tokens <> [].

Lemma list_option :
  sub_parse_known_args p (option_of n :: tokens)
  = POk ([(n, VList (map VStr tokens)); ("func", VFunc f)], []).
Proof.
  with_name_facts n_identifier n_free. pose proof option_facts as H1.
  unfold option_of in *. cbn [append] in *.
  unfold sub_parse_known_args, parse_known_args, _parse_known_args, p, parser_with,
    option_of.
  evaluate. rewrite classify_plain by exact tokens_plain. evaluate.
  rewrite consume_loop_option by reflexivity.
  unfold consume_optional. evaluate. unfold match_following, _match_argument.
  evaluate. rewrite as_arguments_pattern.
  destruct tokens as [|t0 ts] eqn:Tk; [contradiction|]. rewrite <- Tk in *.
  replace (length tokens) with (S (length ts)) by now rewrite Tk.
  rewrite re_match_list by reflexivity.
  replace (S (length ts)) with (length (as_arguments tokens))
    by now rewrite length_as_arguments, Tk.
  evaluate. rewrite firstn_all, skipn_all, as_arguments_strings.
  rewrite take_action_list by (try reflexivity; exact tokens_plain).
  evaluate. rewrite consume_loop_no_option by reflexivity.
  evaluate. unfold consume_positionals. evaluate. reflexivity.
Qed.

End OneListOption.

Lemma classify_cons p s rest :
  classify p (s :: rest)
  = if String.eqb s "--"
    then POk ((s, tDash) :: map (fun x => (x, tA)) rest)
    else
      let* t := _parse_optional p s in
      let* r := classify p rest in
      POk ((s, match t with None => tA | Some tu => tO tu end) :: r).
Proof. reflexivity. Qed.

Section OneScalar.
Variables (name n : string) (ds h : option string) (f : Py.function).
Variable ty : builtin.
Hypothesis n_identifier : identifier n = true.
Hypothesis n_free : ~ In n reserved.
Hypothesis ty_callable : callable ty = true.

Section Positional.
Let p := parser_with name ds (store_action [] n OPTIONAL ty VNone false h) f.

Lemma scalar_positional_none :
  sub_parse_known_args p [] = POk ([(n, VNone); ("func", VFunc f)], []).
Proof.
  with_name_facts n_identifier n_free.
  unfold sub_parse_known_args, parse_known_args, _parse_known_args, p, parser_with.
  evaluate. unfold consume_loop. evaluate. unfold consume_positionals. evaluate.
  unfold _match_arguments_partial. evaluate.
  rewrite re_match_none by reflexivity. evaluate.
  rewrite take_action_scalar_none by reflexivity. evaluate. reflexivity.
Qed.

Lemma scalar_positional_one t :
  plain t = true ->
  sub_parse_known_args p [t] = converted p n f ty n t.
Proof.
  intros Pl. with_name_facts n_identifier n_free.
  unfold converted.
  unfold sub_parse_known_args, parse_known_args, _parse_known_args, p, parser_with.
  rewrite (classify_plain _ [t]) by (cbn; now rewrite Pl).
  evaluate. unfold consume_loop. evaluate. unfold consume_positionals. evaluate.
  unfold _match_arguments_partial. evaluate.
  rewrite re_match_at_most_one by reflexivity. evaluate.
  rewrite take_action_scalar with (ty := ty) by (try reflexivity; assumption).
  destruct (call ty t) as [v| |e]; evaluate; try reflexivity.
  all: try (destruct e; reflexivity).
Qed.
End Positional.

Section Option.
Hypothesis n_not_help : n <> "help".
Let p :=
  parser_with name ds (store_action [option_of n] n OPTIONAL ty VNone false h) f.

Lemma scalar_option_none :
  sub_parse_known_args p [] = POk ([(n, VNone); ("func", VFunc f)], []).
Proof.
  with_name_facts n_identifier n_free.
  pose proof (option_facts n_not_help) as H1.
  unfold option_of in *. cbn [append] in *.
  unfold sub_parse_known_args, parse_known_args, _parse_known_args, p, parser_with,
    option_of.
  evaluate. unfold consume_loop. evaluate. unfold consume_positionals. evaluate.
  reflexivity.
Qed.

Lemma scalar_option_one t :
  plain t = true ->
  sub_parse_known_args p [option_of n; t] = converted p n f ty (option_of n) t.
Proof.
  intros Pl. with_name_facts n_identifier n_free.
  pose proof (option_facts n_not_help) as H1.
  unfold converted.
  unfold option_of in *. cbn [append] in *.
  unfold sub_parse_known_args, parse_known_args, _parse_known_args, p, parser_with,
    option_of.
  rewrite classify_cons, (classify_plain _ [t]) by (cbn; now rewrite Pl).
  evaluate. rewrite consume_loop_option by reflexivity.
  unfold consume_optional. evaluate. unfold match_following, _match_argument.
  evaluate. rewrite re_match_at_most_one by reflexivity. evaluate.
  rewrite take_action_scalar with (ty := ty) by (try reflexivity; assumption).
  destruct (call ty t) as [v| |e]; evaluate; try reflexivity.
  all: try (destruct e; reflexivity).
  unfold consume_loop. evaluate. unfold consume_positionals. evaluate. reflexivity.
Qed.
End Option.

End OneScalar.

(** ** A registered command with one parameter *)

Lemma single_argument_registration f d l p pa ty :
  registration f d l p ->
  params d = [pa] ->
  getattr_builtins (type_name pa) = Return ty ->
  identifier (arg_name pa) = true ->
  ~ In (arg_name pa) reserved ->
  p = parser_with (__name__ f) (or_else (long_description d) (short_description d))
                  (action_for pa ty) f
  /\ (documented_optional pa = true -> arg_name pa <> "help")
  /\ (eq_bool ty = false -> eq_list ty = false -> callable ty = true).
Proof.
  intros (_ & A & Sp) Ps Ty I NR.
  assert (A' := A).
  rewrite Ps in A'. cbn [arg_settings_of] in A'. rewrite Ty in A'.
  injection A' as A'. fold (documented_optional pa) in A'.
  assert (NH : documented_optional pa = true -> arg_name pa <> "help").
  { intros O E. revert Sp. rewrite <- A'.
    unfold subparser_of, settings_of.
    cbn [name long_help args function with_arguments arg_display_name arg_help
         arg_type].
    rewrite E, O. unfold add_argument, _add_action.
    destruct (optional_params_of _) as [|[] t]; evaluate;
      try destruct (callable t); evaluate; discriminate. }
  assert (Ca : eq_bool ty = false -> eq_list ty = false -> callable ty = true).
  { intros EB EL. destruct (callable ty) eqn:C; [reflexivity|].
    revert Sp. rewrite <- A'.
    unfold subparser_of, settings_of.
    cbn [name long_help args function with_arguments arg_display_name arg_help
         arg_type].
    unfold optional_params_of. cbn [arg_type]. rewrite EB, EL.
    unfold add_argument. rewrite C.
    destruct (_ ++ _)%string; [discriminate|].
    cbn [negb]. destruct (_ && _); discriminate. }
  split; [|split; assumption].
  destruct (single_argument_parser f d Ps Ty I NR NH Ca) as (args' & A'' & Sp').
  rewrite A in A''. injection A'' as <-. rewrite Sp in Sp'. now injection Sp'.
Qed.

(** ** From the sub-parser's result to the call *)

Lemma render_menu_exit s name p rest c o :
  _parser (self s) = new_top_parser ->
  Dict.get name (parsers s) = Some p ->
  word name = true ->
  sub_parse_known_args p rest = PExit c o ->
  render_menu (name :: rest) s
  = (Raise (SystemExit c), {| self := self s; console := console s ++ o |}).
Proof.
  intros P G W S.
  unfold render_menu, bind at 1, get_self. rewrite P.
  rewrite top_parse_args_selected with (p := p) by assumption. rewrite S.
  reflexivity.
Qed.

Lemma render_menu_error s name p rest e :
  _parser (self s) = new_top_parser ->
  Dict.get name (parsers s) = Some p ->
  word name = true ->
  sub_parse_known_args p rest = PError e ->
  render_menu (name :: rest) s = (Raise e, s).
Proof.
  intros P G W S.
  unfold render_menu, bind at 1, get_self. rewrite P.
  rewrite top_parse_args_selected with (p := p) by assumption. rewrite S.
  reflexivity.
Qed.

(** The keyword arguments of a call with one parameter: [None] is not
    passed. *)
Lemma run_single s f p rest n v :
  _parser (self s) = new_top_parser ->
  Dict.get (__name__ f) (parsers s) = Some p ->
  word (__name__ f) = true ->
  identifier n = true -> ~ In n reserved ->
  sub_parse_known_args p rest = POk ([(n, v); ("func", VFunc f)], []) ->
  let s' := parsed s [("cmd", VStr (__name__ f)); (n, v); ("func", VFunc f)] in
  render_menu (__name__ f :: rest) s = (Return tt, s')
  /\ execute s'
     = (Return {| callee := VFunc f;
                  kwargs := if is_None v then [] else [(n, v)] |}, s').
Proof.
  intros P G W I NR S s'. with_name_facts I NR.
  assert (M : merge_subnamespace [("cmd", VStr (__name__ f))]
                ([(n, v); ("func", VFunc f)], [])
              = [("cmd", VStr (__name__ f)); (n, v); ("func", VFunc f)]).
  { unfold merge_subnamespace. evaluate. reflexivity. }
  split.
  - pose proof (render_menu_selected s (__name__ f) rest (p := p) P G W S) as R.
    cbv zeta in R.
    match type of R with
    | context [merge_subnamespace ?a ?b] =>
        change (merge_subnamespace a b)
          with (merge_subnamespace [("cmd", VStr (__name__ f))]
                  ([(n, v); ("func", VFunc f)], [])) in R
    end.
    rewrite M in R. apply R.
    + evaluate. reflexivity.
    + exists (VStr (__name__ f)). split; [reflexivity|]. now apply word_truthy.
  - unfold s'. erewrite execute_parsed by (evaluate; reflexivity).
    unfold arg_dict. evaluate. destruct (is_None v); reflexivity.
Qed.

Section BareOption.
Variables (name n : string) (ds h : option string) (f : Py.function).
Variable ty : builtin.
Hypothesis n_identifier : identifier n = true.
Hypothesis n_free : ~ In n reserved.
Hypothesis ty_callable : callable ty = true.
Hypothesis n_not_help : n <> "help".
Let p :=
  parser_with name ds (store_action [option_of n] n OPTIONAL ty VNone false h) f.

(** The option without a value: its [const], which is [None]. *)
Lemma scalar_option_bare :
  sub_parse_known_args p [option_of n] = POk ([(n, VNone); ("func", VFunc f)], []).
Proof.
  with_name_facts n_identifier n_free.
  pose proof (option_facts n_not_help) as H1.
  unfold option_of in *. cbn [append] in *.
  unfold sub_parse_known_args, parse_known_args, _parse_known_args, p, parser_with,
    option_of.
  rewrite classify_cons.
  evaluate. rewrite consume_loop_option by reflexivity.
  unfold consume_optional. evaluate. unfold match_following, _match_argument.
  evaluate. rewrite re_match_none by reflexivity. evaluate.
  rewrite take_action_scalar_none by reflexivity. evaluate.
  unfold consume_loop. evaluate. unfold consume_positionals. evaluate. reflexivity.
Qed.
End BareOption.

(** ** Commands with one parameter, end to end *)





End WithCollaborators.

End Properties.


(* ===================================================================== *)
(** * The properties on the example menu *)
(* ===================================================================== *)

Module Checks.
Import Py Argparse DocstringParser ScriptCommands Example Properties.

Lemma execute_never_passes_bookkeeping_witness :
  let inv := {| callee := VFunc toggle; kwargs := [("verbose", VBool true)] |} in
  ~ In "cmd" (Dict.keys (kwargs inv)) /\ ~ In "func" (Dict.keys (kwargs inv)).
Proof.
  intros inv.
  apply execute_never_passes_bookkeeping
    with (s := snd (render_menu ["toggle"; "--verbose"] menu))
         (s' := snd (render_menu ["toggle"; "--verbose"] menu)).
  reflexivity.
Defined.

Lemma execute_before_parse_raises_witness :
  execute menu = (Raise TypeError, menu).
Proof.
  apply (proj1 execute_before_parse_raises menu). reflexivity.
Defined.

(** C5 as the spec has it fails: on the empty argument vector the stored
    result changes from [None] to the parsed namespace although
    [NoArgumentsPassed] is raised. *)
Lemma render_menu_overwrites_args :
  fst (render_menu [] start) = Raise NoArgumentsPassed
  /\ _args (self start) = None
  /\ _args (self (snd (render_menu [] start))) = Some [("cmd", VNone)].
Proof. repeat split. Qed.

Lemma unknown_type_name_rejected_witness :
  exists e, (e = AttributeError \/ e = TypeError)
            /\ add_function broken start = (Raise e, start).
Proof.
  apply unknown_type_name_rejected
    with (d := {| short_description := Some "Broken."; long_description := None;
                  params := [param "x" "Widget" false "not a builtin"] |}).
  - reflexivity.
  - constructor. intros t. discriminate.
Defined.




Lemma command_without_parameters_witness :
  let s' := parsed menu [("cmd", VStr "run"); ("func", VFunc run)] in
  render_menu ["run"] menu = (Return tt, s')
  /\ execute s' = (Return {| callee := VFunc run; kwargs := [] |}, s').
Proof.
  apply (@command_without_parameters _ _ run menu
           {| short_description := Some "Do it."; long_description := None;
              params := [] |}); try reflexivity.
  apply (registered_among [toggle; tag; count] run []); [apply reachable_init|].
  reflexivity.
Defined.





End Checks.
